(** * Event transcript of inspect_ai: an embedding of [log/_transcript.py]

    The development follows the source file top down: JSON snapshots and
    their change records, timestamps and their serialisation, the event
    variants, the tool-call event with its cancellation protocol, and the
    [Transcript] with its scoped recording helpers.  Definitions come first,
    the properties proved about them afterwards. *)

From Stdlib Require Import Ascii DecimalString.
From stdpp Require Import gmap strings list fin_maps sorting.

#[local] Set Warnings "-register-all,-clear-no-such-hyp".
#[local] Open Scope Z_scope.

(* ================================================================== *)
(** * JSON snapshots and change records *)
(* ================================================================== *)

Module Json.

(** Scalars of a [JsonValue].  Numbers are the integers; the floating
    point numbers of JSON are outside the model. *)
Inductive scalar :=
  | SNull
  | SBool (b : bool)
  | SNum (z : Z)
  | SStr (s : string).

#[global] Instance scalar_eq_dec : EqDecision scalar.
Proof. solve_decision. Defined.

(** A [JsonValue]: a scalar, an ordered sequence, or a mapping with
    string keys (a Python [dict], compared without regard to order). *)
Inductive json :=
  | JScalar (s : scalar)
  | JArr (l : list json)
  | JObj (m : gmap string json).

(** One step of a path: a mapping key or a sequence index. *)
Inductive key :=
  | KName (s : string)
  | KIndex (i : nat).

Inductive change_op := Add | Remove | Replace.

(** A change record: [{path, op, value?}]. *)
Record JsonChange := mkChange {
  op : change_op;
  path : list key;
  value : option json
}.

(** The record [c], seen from the parent that holds the changed tree
    under [k]. *)
Definition under (k : key) (c : JsonChange) : JsonChange :=
  mkChange (op c) (k :: path c) (value c).

(** Trailing entries of a longer new sequence, appended one by one. *)
Definition seq_adds (i : nat) (l : list json) : list JsonChange :=
  imap (λ n x, mkChange Add [KIndex (i + n)%nat] (Some x)) l.

(** Trailing entries of a longer old sequence, dropped from the last
    index down to [i], so that every path names a position that exists
    when its record is reached. *)
Definition seq_removes (i n : nat) : list JsonChange :=
  (λ j, mkChange Remove [KIndex j] None) <$> reverse (seq i n).

Section seq_changes.
Variable rec : json → json → list JsonChange.

(** Two sequences: element-wise up to the shorter length, then the
    length difference as trailing adds or removes. *)
Fixpoint seq_changes (i : nat) (la lb : list json) {struct la}
    : list JsonChange :=
  match la, lb with
  | x :: la', y :: lb' =>
      (under (KIndex i) <$> rec x y) ++ seq_changes (S i) la' lb'
  | [], _ => seq_adds i lb
  | _ :: _, [] => seq_removes i (length la)
  end.
End seq_changes.

Section obj_changes.
Variable rec : json → json → list JsonChange.

(** Two mappings: the keys of the old one are removed or recursed
    into, then the keys only the new one has are added. *)
Definition obj_changes (ma mb : gmap string json) : list JsonChange :=
  map_fold (λ k va acc,
      match mb !! k with
      | Some vb => under (KName k) <$> rec va vb
      | None => [mkChange Remove [KName k] None]
      end ++ acc) [] ma
  ++ map_fold (λ k vb acc,
      match ma !! k with
      | None => mkChange Add [KName k] (Some vb) :: acc
      | Some _ => acc
      end) [] mb.
End obj_changes.

(** Modelled from the spec: [json_changes] of [inspect_ai._util.json],
    which the transcript imports and the sources at hand do not contain.
    It is the recursive structural diff of section 4.1: mappings by key
    set, sequences by index, and a single [Replace] at the current path
    for scalars that differ and for values of different shape.  The
    spec leaves the order of the records open; the traversal here is
    old keys, then new keys, and trailing removals from the end. *)
Fixpoint json_changes (a b : json) {struct a} : list JsonChange :=
  match a, b with
  | JObj ma, JObj mb => obj_changes json_changes ma mb
  | JArr la, JArr lb => seq_changes json_changes 0 la lb
  | JScalar x, JScalar y =>
      if decide (x = y) then [] else [mkChange Replace [] (Some b)]
  | _, _ => [mkChange Replace [] (Some b)]
  end.

(** ** Applying change records *)

Definition get_child (k : key) (j : json) : option json :=
  match k, j with
  | KName s, JObj m => m !! s
  | KIndex i, JArr l => l !! i
  | _, _ => None
  end.

Definition set_child (k : key) (x : json) (j : json) : option json :=
  match k, j with
  | KName s, JObj m => Some (JObj (<[s:=x]> m))
  | KIndex i, JArr l => Some (JArr (<[i:=x]> l))
  | _, _ => None
  end.

Definition insert_child (k : key) (x : json) (j : json) : option json :=
  match k, j with
  | KName s, JObj m => Some (JObj (<[s:=x]> m))
  | KIndex i, JArr l =>
      if decide (i ≤ length l)%nat
      then Some (JArr (take i l ++ x :: drop i l)) else None
  | _, _ => None
  end.

Definition remove_child (k : key) (j : json) : option json :=
  match k, j with
  | KName s, JObj m =>
      match m !! s with Some _ => Some (JObj (delete s m)) | None => None end
  | KIndex i, JArr l =>
      match l !! i with Some _ => Some (JArr (delete i l)) | None => None end
  | _, _ => None
  end.

(** Modelled from the spec: the meaning of one change record of section
    3, at a path read from the root.  [Replace] needs the location to
    exist, [Add] and [Remove] act on the container that holds the last
    path step, and a path that does not fit the tree is an error
    ([None]). *)
Fixpoint apply_at (p : list key) (o : change_op) (v : option json)
    (j : json) {struct p} : option json :=
  match p with
  | [] => match o with Replace => v | _ => None end
  | k :: p' =>
      match p', o, v with
      | [], Add, Some x => insert_child k x j
      | [], Add, None => None
      | [], Remove, _ => remove_child k j
      | _, _, _ =>
          c ← get_child k j;
          c' ← apply_at p' o v c;
          set_child k c' j
      end
  end.

Definition apply_change (c : JsonChange) (j : json) : option json :=
  apply_at (path c) (op c) (value c) j.

(** The records are applied one after the other, in list order. *)
Fixpoint apply_changes (cs : list JsonChange) (j : json) : option json :=
  match cs with
  | [] => Some j
  | c :: cs' => j' ← apply_change c j; apply_changes cs' j'
  end.

(** Size of a tree, the measure behind induction on [json]. *)
Fixpoint jsize (j : json) : nat :=
  match j with
  | JScalar _ => 1
  | JArr l => S (foldr (λ x acc, jsize x + acc)%nat 0%nat l)
  | JObj m => S (map_fold (λ _ x acc, jsize x + acc)%nat 0%nat m)
  end.

(** The contribution of one old key, and of one new key, to
    [obj_changes], as functions of a key-value pair. *)
Definition old_key_step (rec : json → json → list JsonChange)
    (mb : gmap string json) (kv : string * json) (acc : list JsonChange) :=
  match mb !! kv.1 with
  | Some vb => under (KName kv.1) <$> rec kv.2 vb
  | None => [mkChange Remove [KName kv.1] None]
  end ++ acc.

Definition new_key_step (ma : gmap string json) (kv : string * json)
    (acc : list JsonChange) :=
  match ma !! kv.1 with
  | None => mkChange Add [KName kv.1] (Some kv.2) :: acc
  | Some _ => acc
  end.

End Json.


(* ================================================================== *)
(** * Timestamps *)
(* ================================================================== *)

Module Datetime.

(** A [datetime.datetime] value.  [tzinfo] is [None] for a naive value
    and otherwise holds the UTC offset, in seconds, that the attached
    time zone gives for this value. *)
Record datetime := mkDatetime {
  year : Z;
  month : Z;
  day : Z;
  hour : Z;
  minute : Z;
  second : Z;
  microsecond : Z;
  tzinfo : option Z
}.

Definition MINYEAR : Z := 1.
Definition MAXYEAR : Z := 9999.

Definition is_leap (y : Z) : bool :=
  (y mod 4 =? 0) && (negb (y mod 100 =? 0) || (y mod 400 =? 0)).

Definition days_in_month (y m : Z) : Z :=
  if m =? 2 then (if is_leap y then 29 else 28)
  else if (m =? 4) || (m =? 6) || (m =? 9) || (m =? 11) then 30
  else 31.

(** The invariant of the [datetime] type: what its constructor checks. *)
Definition valid_date (y m d : Z) : bool :=
  (MINYEAR <=? y) && (y <=? MAXYEAR) && (1 <=? m) && (m <=? 12)
  && (1 <=? d) && (d <=? days_in_month y m).

Definition valid_offset (o : Z) : bool := (-86400 <? o) && (o <? 86400).

Definition valid_datetime (dt : datetime) : bool :=
  valid_date (year dt) (month dt) (day dt)
  && (0 <=? hour dt) && (hour dt <? 24)
  && (0 <=? minute dt) && (minute dt <? 60)
  && (0 <=? second dt) && (second dt <? 60)
  && (0 <=? microsecond dt) && (microsecond dt <? 1000000)
  && match tzinfo dt with Some o => valid_offset o | None => true end.

(** The day after and the day before a calendar date; [None] when the
    result leaves [MINYEAR..MAXYEAR] (Python raises [OverflowError]). *)
Definition next_day (ymd : Z * Z * Z) : option (Z * Z * Z) :=
  let '(y, m, d) := ymd in
  if d <? days_in_month y m then Some (y, m, d + 1)
  else if m <? 12 then Some (y, m + 1, 1)
  else if y <? MAXYEAR then Some (y + 1, 1, 1)
  else None.

Definition prev_day (ymd : Z * Z * Z) : option (Z * Z * Z) :=
  let '(y, m, d) := ymd in
  if 1 <? d then Some (y, m, d - 1)
  else if 1 <? m then Some (y, m - 1, days_in_month y (m - 1))
  else if MINYEAR <? y then Some (y - 1, 12, 31)
  else None.

Fixpoint iter_day (f : Z * Z * Z → option (Z * Z * Z)) (n : nat)
    (ymd : Z * Z * Z) : option (Z * Z * Z) :=
  match n with
  | O => Some ymd
  | S n' => ymd' ← f ymd; iter_day f n' ymd'
  end.

Definition shift_days (c : Z) (ymd : Z * Z * Z) : option (Z * Z * Z) :=
  if 0 <=? c then iter_day next_day (Z.to_nat c) ymd
  else iter_day prev_day (Z.to_nat (- c)) ymd.

(** [dt + timedelta(seconds=delta)]: the time of day moves by [delta]
    seconds and the date by the days carried; the time zone stays. *)
Definition add_seconds (dt : datetime) (delta : Z) : option datetime :=
  let s := hour dt * 3600 + minute dt * 60 + second dt + delta in
  let sod := s mod 86400 in
  '(y, m, d) ← shift_days (s / 86400) (year dt, month dt, day dt);
  Some (mkDatetime y m d (sod / 3600) (sod mod 3600 / 60) (sod mod 60)
          (microsecond dt) (tzinfo dt)).

Definition replace_tzinfo (dt : datetime) (tz : option Z) : datetime :=
  mkDatetime (year dt) (month dt) (day dt) (hour dt) (minute dt)
    (second dt) (microsecond dt) tz.

Section local_zone.
(** The local time zone of the process, as the C library reports it:
    the offset in force for a wall-clock time read as local time
    ([mktime]), and the offset in force at an instant given in UTC
    ([localtime]). *)
Variable local_from_local : datetime → Z.
Variable local_timezone : datetime → Z.

(** [dt.astimezone()] without an argument: the value is brought to UTC
    with its own offset (the local one when it is naive), and from there
    to the local zone, whose offset is attached. *)
Definition astimezone (dt : datetime) : option datetime :=
  let myoffset :=
    match tzinfo dt with
    | Some o => o
    | None => local_from_local dt
    end in
  utc ← add_seconds dt (- myoffset);
  let tz := local_timezone utc in
  r ← add_seconds utc tz;
  Some (replace_tzinfo r (Some tz)).
End local_zone.

(** ** [isoformat] *)

Definition digit_char (d : Z) : ascii := ascii_of_nat (48 + Z.to_nat d).

(** The [w] low decimal digits of [n], most significant first, in front
    of [rest]. *)
Fixpoint put_digits (w : nat) (n : Z) (rest : string) : string :=
  match w with
  | O => rest
  | S w' => put_digits w' (n / 10) (String (digit_char (n mod 10)) rest)
  end.

(** [printf]'s ["%0wd"]: zero padded to [w] digits when the number fits,
    and the plain decimal numeral when it does not. *)
Definition fmt_d (w : nat) (n : Z) (rest : string) : string :=
  if (0 <=? n) && (n <? 10 ^ Z.of_nat w) then put_digits w n rest
  else NilZero.string_of_int (Z.to_int n) +:+ rest.

Definition format_offset (off : option Z) : string :=
  match off with
  | None => ""
  | Some o =>
      let sign := if o <? 0 then "-" else "+" in
      let a := Z.abs o in
      let hh := a / 3600 in
      let mm := a mod 3600 / 60 in
      let ss := a mod 60 in
      sign +:+ fmt_d 2 hh (String ":" (fmt_d 2 mm
        (if ss =? 0 then "" else String ":" (fmt_d 2 ss ""))))
  end.

Definition format_time (hh mm ss us : Z) (rest : string) : string :=
  fmt_d 2 hh (String ":" (fmt_d 2 mm (String ":" (fmt_d 2 ss
    (if us =? 0 then rest else String "." (fmt_d 6 us rest)))))).

(** [dt.isoformat()] with the default separator and time spec. *)
Definition isoformat (dt : datetime) : string :=
  fmt_d 4 (year dt) (String "-" (fmt_d 2 (month dt) (String "-"
    (fmt_d 2 (day dt) (String "T"
      (format_time (hour dt) (minute dt) (second dt) (microsecond dt)
         (format_offset (tzinfo dt)))))))).

(** ** A reader for the serialised form *)

Definition is_digit (c : ascii) : bool :=
  (48 <=? nat_of_ascii c)%nat && (nat_of_ascii c <=? 57)%nat.

Fixpoint eat_digits (n : nat) (s : string) : option string :=
  match n, s with
  | O, _ => Some s
  | S n', String c s' => if is_digit c then eat_digits n' s' else None
  | S _, EmptyString => None
  end.

Definition eat_char (c : ascii) (s : string) : option string :=
  match s with
  | String c' s' => if Ascii.eqb c c' then Some s' else None
  | EmptyString => None
  end.

(** An optional fraction of exactly six digits. *)
Definition eat_fraction (s : string) : option string :=
  match s with
  | String "." s' => eat_digits 6 s'
  | _ => Some s
  end.

(** The UTC offset that ends the string: a sign, [HH:MM], and seconds
    when the offset has them. *)
Definition reads_offset (s : string) : bool :=
  match s with
  | String c s' =>
      (Ascii.eqb c "+" || Ascii.eqb c "-")
      && match r1 ← eat_digits 2 s'; r2 ← eat_char ":" r1; eat_digits 2 r2 with
         | Some EmptyString => true
         | Some r =>
             match r1 ← eat_char ":" r; eat_digits 2 r1 with
             | Some EmptyString => true
             | _ => false
             end
         | None => false
         end
  | EmptyString => false
  end.

(** [YYYY-MM-DDTHH:MM:SS[.ffffff]] followed by an explicit offset. *)
Definition iso8601_with_offset (s : string) : bool :=
  match
    r ← eat_digits 4 s; r ← eat_char "-" r;
    r ← eat_digits 2 r; r ← eat_char "-" r;
    r ← eat_digits 2 r; r ← eat_char "T" r;
    r ← eat_digits 2 r; r ← eat_char ":" r;
    r ← eat_digits 2 r; r ← eat_char ":" r;
    r ← eat_digits 2 r; eat_fraction r
  with
  | Some r => reads_offset r
  | None => false
  end.

End Datetime.


(* ================================================================== *)
(** * Events *)
(* ================================================================== *)

Import Json Datetime.

(** [BaseEvent]: what every event carries. *)
Record BaseEvent := mkBase {
  timestamp : datetime;
  pending : option bool
}.

Section serialize.
Variable local_from_local : datetime → Z.
Variable local_timezone : datetime → Z.

(** [BaseEvent.serialize_timestamp]: [dt.astimezone().isoformat()];
    [None] stands for the [OverflowError] of a conversion that leaves
    the years a [datetime] can hold. *)
Definition serialize_timestamp (dt : datetime) : option string :=
  isoformat <$> astimezone local_from_local local_timezone dt.
End serialize.

Inductive LimitType :=
  | LimitMessage | LimitTime | LimitToken | LimitOperator | LimitCustom.

Inductive CacheMode := CacheRead | CacheWrite.

Inductive Decision :=
  | Approve | Modify | Reject | Escalate | Terminate.

Inductive StepAction := Begin | End_.

#[global] Instance StepAction_eq_dec : EqDecision StepAction.
Proof. solve_decision. Defined.

(** [ToolResult], without its floating point case. *)
Inductive ToolResult :=
  | ResultStr (s : string)
  | ResultInt (z : Z)
  | ResultBool (b : bool)
  | ResultContent (l : list json).

Record ToolCallError := mkToolCallError {
  error_type : string;
  error_message : string
}.

(** An [asyncio.Task] handle, by the identity of the task. *)
Definition Task := nat.

Module Tool.

(** [ToolEvent], over the type [E] of the events it nests.  The two
    private attributes come last. *)
Record ToolEvent (E : Type) := mkToolEvent {
  base : BaseEvent;
  tool_id : string;
  function : string;
  arguments : gmap string json;
  view : option json;
  result : ToolResult;
  truncated : option (Z * Z);
  error : option ToolCallError;
  events : list E;
  _cancelled : option bool;
  _task : option Task
}.

#[global] Arguments mkToolEvent {E}.
#[global] Arguments base {E}.
#[global] Arguments tool_id {E}.
#[global] Arguments function {E}.
#[global] Arguments arguments {E}.
#[global] Arguments view {E}.
#[global] Arguments result {E}.
#[global] Arguments truncated {E}.
#[global] Arguments error {E}.
#[global] Arguments events {E}.
#[global] Arguments _cancelled {E}.
#[global] Arguments _task {E}.

Section methods.
Context {E : Type}.

(** The constructor call [ToolEvent(id=.., function=.., arguments=..,
    view=.., pending=..)] with the field defaults of the class. *)
Definition new (ts : datetime) (pend : option bool) (id fn : string)
    (args : gmap string json) (vw : option json) : ToolEvent E :=
  mkToolEvent (mkBase ts pend) id fn args vw (ResultStr "") None None []
    None None.

Definition _set_result (self : ToolEvent E) (res : ToolResult)
    (trunc : option (Z * Z)) (err : option ToolCallError)
    (evs : list E) : ToolEvent E :=
  mkToolEvent (mkBase (timestamp (base self)) None)
    (tool_id self) (function self) (arguments self) (view self)
    res trunc err evs (_cancelled self) (_task self).

Definition _set_task (self : ToolEvent E) (task : Task) : ToolEvent E :=
  mkToolEvent (base self) (tool_id self) (function self) (arguments self)
    (view self) (result self) (truncated self) (error self) (events self)
    (_cancelled self) (Some task).

(** [_cancel]: the second component of the state is the set of tasks on
    which [cancel()] has been called.  A task handle is always truthy. *)
Definition _cancel (self : ToolEvent E) (requested : gset Task)
    : ToolEvent E * gset Task :=
  match _task self with
  | Some task =>
      (mkToolEvent (base self) (tool_id self) (function self)
         (arguments self) (view self) (result self) (truncated self)
         (error self) (events self) (Some true) (_task self),
       {[task]} ∪ requested)
  | None => (self, requested)
  end.

(** The [cancelled] property: [self._cancelled is True]. *)
Definition cancelled (self : ToolEvent E) : bool :=
  match _cancelled self with
  | Some true => true
  | _ => false
  end.

(** The calls a holder of the event can make on it. *)
Inductive call :=
  | Call_set_result (res : ToolResult) (trunc : option (Z * Z))
      (err : option ToolCallError) (evs : list E)
  | Call_set_task (task : Task)
  | Call_cancel.

Definition run_call (c : call) (st : ToolEvent E * gset Task)
    : ToolEvent E * gset Task :=
  match c with
  | Call_set_result res trunc err evs =>
      (_set_result st.1 res trunc err evs, st.2)
  | Call_set_task task => (_set_task st.1 task, st.2)
  | Call_cancel => _cancel st.1 st.2
  end.

Definition run_calls (cs : list call) (st : ToolEvent E * gset Task)
    : ToolEvent E * gset Task :=
  foldl (λ s c, run_call c s) st cs.

End methods.
End Tool.

(** The [Event] union.  The payload classes that live in other modules
    of the package ([Sample], [ChatMessage], [ModelOutput], [Score], ...)
    appear by their JSON form. *)
Inductive Event :=
  | SampleInitEvent (b : BaseEvent) (sample state : json)
  | SampleLimitEvent (b : BaseEvent) (type : LimitType) (message : string)
      (limit : option Z)
  | StateEvent (b : BaseEvent) (changes : list JsonChange)
  | StoreEvent (b : BaseEvent) (changes : list JsonChange)
  | ModelEvent (b : BaseEvent) (model : string) (input tools : list json)
      (tool_choice config output : json) (error : option string)
      (cache : option CacheMode) (call : option json)
  | ToolEvent (te : Tool.ToolEvent Event)
  | ApprovalEvent (b : BaseEvent) (message : string) (call : json)
      (view : option json) (approver : string) (decision : Decision)
      (modified : option json) (explanation : option string)
  | InputEvent (b : BaseEvent) (input input_ansi : string)
  | ScoreEvent (b : BaseEvent) (score : json) (target : option (list string))
  | ErrorEvent (b : BaseEvent) (error : json)
  | LoggerEvent (b : BaseEvent) (message : json)
  | InfoEvent (b : BaseEvent) (data : json)
  | StepEvent (b : BaseEvent) (action : StepAction) (type : option string)
      (name : string)
  | SubtaskEvent (b : BaseEvent) (name : string) (type : option string)
      (input : gmap string json) (result : json) (events : list Event).

Definition event_base (e : Event) : BaseEvent :=
  match e with
  | SampleInitEvent b _ _ | SampleLimitEvent b _ _ _ | StateEvent b _
  | StoreEvent b _ | ModelEvent b _ _ _ _ _ _ _ _ _
  | ApprovalEvent b _ _ _ _ _ _ _ | InputEvent b _ _ | ScoreEvent b _ _
  | ErrorEvent b _ | LoggerEvent b _ | InfoEvent b _ | StepEvent b _ _ _
  | SubtaskEvent b _ _ _ _ _ => b
  | ToolEvent te => Tool.base te
  end.


(* ================================================================== *)
(** * Transcripts *)
(* ================================================================== *)

(** A [Transcript] object. *)
Record Transcript := mkTranscript {
  name : string;
  _events : list Event
}.

(** What a piece of code can raise: the cancellation of the running
    task, or an error. *)
Inductive BaseException :=
  | CancelledError
  | Exception (msg : string).

(** The state the transcript code runs in.  [Transcript] objects live in
    a heap and are named by reference, as the same object is reached
    through [self], through the context variable and through the active
    sample; a reference not yet handed out holds a blank object.  The
    context variable [_transcript] has one binding per execution context
    ([bindings], by context identity), [current] is the context that is
    running.  [store] and [state] are the JSON snapshots
    [store_jsonable(store())] and [state_jsonable()] would take now, and
    [now] is the reading of [datetime.now()]. *)
Record World := mkWorld {
  heap : nat → Transcript;
  next_ref : nat;
  bindings : gmap nat nat;
  current : nat;
  next_context : nat;
  store : json;
  state : json;
  now : datetime;
  cancel_requested : gset Task
}.

Definition set_heap (h : nat → Transcript) (w : World) : World :=
  mkWorld h (next_ref w) (bindings w) (current w) (next_context w)
    (store w) (state w) (now w) (cancel_requested w).

Definition set_bindings (b : gmap nat nat) (w : World) : World :=
  mkWorld (heap w) (next_ref w) b (current w) (next_context w)
    (store w) (state w) (now w) (cancel_requested w).

Definition set_current (c : nat) (w : World) : World :=
  mkWorld (heap w) (next_ref w) (bindings w) c (next_context w)
    (store w) (state w) (now w) (cancel_requested w).

Definition set_next_context (n : nat) (w : World) : World :=
  mkWorld (heap w) (next_ref w) (bindings w) (current w) n
    (store w) (state w) (now w) (cancel_requested w).

Definition set_cancel_requested (r : gset Task) (w : World) : World :=
  mkWorld (heap w) (next_ref w) (bindings w) (current w) (next_context w)
    (store w) (state w) (now w) r.

(** The result of running a block: it returns or it raises. *)
Inductive Outcome :=
  | Returned
  | Raised (exc : BaseException).

Definition Body := World → Outcome * World.

(** [Transcript(name)]: a fresh object with no events. *)
Definition new_Transcript (nm : string) (w : World) : nat * World :=
  let r := next_ref w in
  (r, mkWorld (λ r', if decide (r' = r) then mkTranscript nm [] else heap w r')
        (S r) (bindings w) (current w) (next_context w)
        (store w) (state w) (now w) (cancel_requested w)).

(** The object made by [default=Transcript()] when the module is loaded:
    the first one on the heap. *)
Definition default_transcript : nat := 0%nat.

(** The state right after the module is loaded, in the context [0]. *)
Definition initial_world (st sta : json) (clock : datetime) : World :=
  mkWorld (λ _, mkTranscript "" []) 1 ∅ 0 1 st sta clock ∅.

(** [Transcript._event]. *)
Definition _event (self : nat) (event : Event) (w : World) : World :=
  set_heap (λ r, if decide (r = self)
                 then mkTranscript (name (heap w r)) (_events (heap w r) ++ [event])
                 else heap w r) w.

(** The [events] property. *)
Definition events (self : nat) (w : World) : list Event :=
  _events (heap w self).

(** An event made now, with the defaults of [BaseEvent]. *)
Definition fresh_base (w : World) : BaseEvent := mkBase (now w) None.

(** [Transcript.info]. *)
Definition info (self : nat) (data : json) (w : World) : World :=
  _event self (InfoEvent (fresh_base w) data) w.

(** [transcript()]: [_transcript.get()], the binding of the running
    context or else the default of the variable. *)
Definition transcript (w : World) : nat :=
  default default_transcript (bindings w !! current w).

(** [init_transcript]: [_transcript.set(transcript)], in the running
    context. *)
Definition init_transcript (t : nat) (w : World) : World :=
  set_bindings (<[current w := t]> (bindings w)) w.

(** Running [child] as a task of its own: the task gets a copy of the
    context of its creator, and the creator goes on in its own context
    when the task is done. *)
Definition run_in_copied_context (child : Body) : Body := λ w,
  let parent := current w in
  let c := next_context w in
  let copied :=
    match bindings w !! parent with
    | Some t => <[c := t]> (bindings w)
    | None => delete c (bindings w)
    end in
  let '(o, w') :=
    child (set_next_context (S c) (set_current c (set_bindings copied w))) in
  (o, set_current parent w').

(** ** Generator-based context managers *)

(** A function under [@contextlib.contextmanager] whose generator has one
    [yield] outside any [try]: [cm_enter] is the code before the [yield],
    with the locals it leaves behind, [cm_exit] the code after it. *)
Record ContextManager (F : Type) := mkContextManager {
  cm_enter : World → F * World;
  cm_exit : F → World → World
}.

#[global] Arguments mkContextManager {F}.
#[global] Arguments cm_enter {F}.
#[global] Arguments cm_exit {F}.

(** [with cm: body].  When the body raises, the exception is thrown into
    the generator at its [yield]; nothing there catches it, so the code
    after the [yield] does not run and the exception goes on. *)
Definition with_ {F} (cm : ContextManager F) (body : Body) : Body := λ w,
  let '(f, w1) := cm_enter cm w in
  match body w1 with
  | (Returned, w2) => (Returned, cm_exit cm f w2)
  | (Raised exc, w2) => (Raised exc, w2)
  end.

(** Modelled from the spec: [store_changes] of [inspect_ai.util._store],
    imported and not among the sources; section 4.2 has it diff the two
    snapshots as section 4.1 describes. *)
Definition store_changes (before after : json) : list JsonChange :=
  json_changes before after.

(** [track_store_changes]; [if changes:] is the test for a list that is
    not empty. *)
Definition track_store_changes : ContextManager json :=
  mkContextManager
    (λ w, (store w, w))
    (λ before w,
       let after := store w in
       let changes := store_changes before after in
       match changes with
       | [] => w
       | _ :: _ => _event (transcript w) (StoreEvent (fresh_base w) changes) w
       end).

Section sample_subtask.
(** [SAMPLE_SUBTASK] of [inspect_ai._util.constants]: the reserved name
    of the transcript of the top-level sample scope. *)
Variable SAMPLE_SUBTASK : string.

(** The test at the head of [track_state_changes]. *)
Definition state_tracking_engaged (type : option string) (w : World) : bool :=
  bool_decide (name (heap w (transcript w)) = SAMPLE_SUBTASK)
  && negb (bool_decide (type = Some "solver")).

(** [track_state_changes]: the local it leaves behind is the snapshot
    taken before the [yield], or nothing on the branch that only
    yields. *)
Definition track_state_changes (type : option string)
    : ContextManager (option json) :=
  mkContextManager
    (λ w, if state_tracking_engaged type w then (Some (state w), w)
          else (None, w))
    (λ frame w,
       match frame with
       | Some before =>
           let after := state w in
           let changes := json_changes before after in
           match changes with
           | [] => w
           | _ :: _ =>
               _event (transcript w) (StateEvent (fresh_base w) changes) w
           end
       | None => w
       end).

(** [Transcript.step], as the block [with self.step(name, type): body]. *)
Definition step (self : nat) (nm : string) (type : option string)
    (body : Body) : Body := λ w,
  let w1 := _event self (StepEvent (fresh_base w) Begin type nm) w in
  match with_ (track_state_changes type) (with_ track_store_changes body) w1 with
  | (Returned, w2) =>
      (Returned, _event self (StepEvent (fresh_base w2) End_ type nm) w2)
  | (Raised exc, w2) => (Raised exc, w2)
  end.

End sample_subtask.

(** ** The toolbar of the sample display *)

Inductive Button :=
  | TIMEOUT_TOOL_CALL
  | CANCEL_SCORE_OUTPUT
  | CANCEL_RAISE_ERROR
  | OtherButton.

(** Replaces the last element of a list. *)
Definition set_last {A} (x : A) (l : list A) : list A :=
  match l with
  | [] => []
  | _ :: _ => removelast l ++ [x]
  end.

Section toolbar.
(** [ActiveSample.interrupt], of the sample tracker, is not part of the
    sources; an active sample is known here by its transcript. *)
Variable interrupt : nat → string → World → World.

(** [SampleToolbar.on_button_pressed]: the tool event at the tail of the
    transcript is the very object the tool call holds, so cancelling it
    updates the element in place. *)
Definition on_button_pressed (sample : option nat) (button : Button)
    (w : World) : World :=
  match sample with
  | None => w
  | Some t =>
      match button with
      | TIMEOUT_TOOL_CALL =>
          match last (events t w) with
          | Some (ToolEvent te) =>
              let '(te', req) := Tool._cancel te (cancel_requested w) in
              set_cancel_requested req
                (set_heap (λ r, if decide (r = t)
                                then mkTranscript (name (heap w r))
                                       (set_last (ToolEvent te') (_events (heap w r)))
                                else heap w r) w)
          | _ => w
          end
      | CANCEL_SCORE_OUTPUT => interrupt t "score" w
      | CANCEL_RAISE_ERROR => interrupt t "error" w
      | OtherButton => w
      end
  end.
End toolbar.


(* ================================================================== *)
(** * Vocabulary of the properties *)
(* ================================================================== *)

Definition set_store (s : json) (w : World) : World :=
  mkWorld (heap w) (next_ref w) (bindings w) (current w) (next_context w)
    s (state w) (now w) (cancel_requested w).

Definition set_state (s : json) (w : World) : World :=
  mkWorld (heap w) (next_ref w) (bindings w) (current w) (next_context w)
    (store w) s (now w) (cancel_requested w).

(** The begin and end marks of the step [(nm, type)] among [evs], in the
    order they occur. *)
Definition step_marks (nm : string) (type : option string)
    (evs : list Event) : list StepAction :=
  omap (λ e,
          match e with
          | StepEvent _ a t n =>
              if decide (t = type ∧ n = nm) then Some a else None
          | _ => None
          end) evs.

(** A run of calls of the append primitive, each on some transcript. *)
Definition appends (es : list (nat * Event)) (w : World) : World :=
  foldl (λ w' re, _event re.1 re.2 w') w es.

(** The events of [es] that go to the transcript [r], in order. *)
Definition sent_to (r : nat) (es : list (nat * Event)) : list Event :=
  omap (λ re, if decide (re.1 = r) then Some re.2 else None) es.

(** The heap after [b] is the heap after some run of appends. *)
Definition appends_only (b : Body) : Prop :=
  ∀ w, ∃ es, ∀ r, heap (b w).2 r = heap (appends es w) r.

(** The public operations on transcripts. *)
Inductive Operation :=
  | OpInfo (self : nat) (data : json)
  | OpStep (self : nat) (nm : string) (type : option string) (body : Body)
  | OpTrackStore (body : Body)
  | OpTrackState (type : option string) (body : Body).

Definition run_operation (SAMPLE_SUBTASK : string) (o : Operation) : Body :=
  match o with
  | OpInfo self data => λ w, (Returned, info self data w)
  | OpStep self nm type body => step SAMPLE_SUBTASK self nm type body
  | OpTrackStore body => with_ track_store_changes body
  | OpTrackState type body =>
      with_ (track_state_changes SAMPLE_SUBTASK type) body
  end.

(** The code an operation brackets, when it brackets any. *)
Definition operation_body (o : Operation) : Body :=
  match o with
  | OpInfo _ _ => λ w, (Returned, w)
  | OpStep _ _ _ body | OpTrackStore body | OpTrackState _ body => body
  end.

(** [b] leaves the bindings of the contexts other than the running one
    as they are. *)
Definition respects_contexts (b : Body) : Prop :=
  ∀ w c, c ≠ current w → (c < next_context w)%nat →
    bindings (b w).2 !! c = bindings w !! c.

(** Two worlds with the same transcripts. *)
Definition heap_eq (w w' : World) : Prop := ∀ r, heap w r = heap w' r.

(** What the code after the [yield] of [track_store_changes] adds to the
    transcript [r]. *)
Definition store_exit_events (before : json) (w : World) (r : nat) : list Event :=
  match store_changes before (store w) with
  | [] => []
  | (_ :: _) as changes =>
      if decide (r = transcript w) then [StoreEvent (fresh_base w) changes] else []
  end.

(** The same for [track_state_changes]. *)
Definition state_exit_events (frame : option json) (w : World) (r : nat)
    : list Event :=
  match frame with
  | Some before =>
      match json_changes before (state w) with
      | [] => []
      | (_ :: _) as changes =>
          if decide (r = transcript w) then [StateEvent (fresh_base w) changes] else []
      end
  | None => []
  end.


(** ** Sample data *)

Definition sample_time : datetime := mkDatetime 2025 1 15 10 30 0 0 None.

(** A tool call in flight, as [call_tools] creates it. *)
Definition pending_call : Tool.ToolEvent Event :=
  Tool.new sample_time (Some true) "call_1" "bash" ∅ None.

(** The same call with its task handle set and its result in. *)
Definition resolved_call : Tool.ToolEvent Event :=
  Tool._set_result (Tool._set_task pending_call 7%nat)
    (ResultStr "done") None None [].


(** The state after loading, with an empty store and an empty task
    state. *)
Definition world0 : World := initial_world (JObj ∅) (JObj ∅) sample_time.

Definition store1 : json := JObj {[ "answer" := JScalar (SNum 42) ]}.

(** Scoped work that is cancelled at once. *)
Definition cancelled_body : Body := λ w, (Raised CancelledError, w).

(** Scoped work that writes to the store and then fails. *)
Definition store_then_raise : Body :=
  λ w, (Raised (Exception "boom"), set_store store1 w).

(** Scoped work that changes the task state and then fails. *)
Definition state_then_raise : Body :=
  λ w, (Raised (Exception "boom"), set_state store1 w).

(** Scoped work that writes to the store, logs a note and returns. *)
Definition store_and_info : Body :=
  λ w, (Returned, info (transcript w) (JScalar (SStr "note")) (set_store store1 w)).

(** The state at the start of a sample: a transcript named ["sample"]
    has been made and bound in the running context. *)
Definition sample_world : World :=
  let '(t, w) := new_Transcript "sample" world0 in init_transcript t w.

(** Scoped work that changes the task state, logs a note and returns. *)
Definition state_and_info : Body :=
  λ w, (Returned, info (transcript w) (JScalar (SStr "note")) (set_state store1 w)).


(** The body of a subtask once it has its own transcript: it logs a
    note to whatever transcript is current. *)
Definition note_body : Body :=
  λ w, (Returned, info (transcript w) (JScalar (SStr "note")) w).


(** A local zone one hour east of Greenwich all year round. *)
Definition utc_plus_one : datetime → Z := λ _, 3600.

Definition sample_info_event : Event :=
  InfoEvent (mkBase sample_time None) (JScalar (SStr "note")).


(* ================================================================== *)
(** * More vocabulary *)
(* ================================================================== *)

(** Is the call a resolution? *)
Definition is_set_result {E} (c : @Tool.call E) : bool :=
  match c with
  | Tool.Call_set_result _ _ _ _ => true
  | _ => false
  end.

(** Scoped work that changes the store and the task state and returns. *)
Definition store_and_state_body : Body :=
  λ w, (Returned, set_state store1 (set_store store1 w)).

(** The reading of a clock at Greenwich when [dt], taken at the offset
    [off], is on the wall; the time zone is left off. *)
Definition utc_reading (dt : datetime) (off : Z) : option datetime :=
  (λ u, replace_tzinfo u None) <$> add_seconds dt (- off).

(** The offset [astimezone] takes a value to be at. *)
Definition own_offset (local_from_local : datetime → Z) (dt : datetime) : Z :=
  match tzinfo dt with
  | Some o => o
  | None => local_from_local dt
  end.


(* ================================================================== *)
(** * Lists, as Python has them *)
(* ================================================================== *)

Section list_sort.
Context {A : Type} (before : A → A → bool).

(** [x] goes in front of the first element it may stand before. *)
Fixpoint insert_sorted (x : A) (l : list A) : list A :=
  match l with
  | [] => [x]
  | y :: l' => if before x y then x :: l else y :: insert_sorted x l'
  end.

(** [list.sort]: the sort is stable, elements that compare equal keep
    the order they had; [before x y] tells whether [x] may stand before
    [y] (for [key=k] it is [k x <= k y], for [reverse=True] it is
    [k y <= k x]). *)
Definition list_sort (l : list A) : list A := foldr insert_sorted [] l.
End list_sort.

(** [l[i]]: a negative index counts from the end, and an index out of
    range raises [IndexError] ([None]). *)
Definition getitem {A} (l : list A) (i : Z) : option A :=
  if 0 <=? i then l !! Z.to_nat i
  else if - Z.of_nat (length l) <=? i
       then l !! Z.to_nat (Z.of_nat (length l) + i)
       else None.


(* ================================================================== *)
(** * Sandbox connections: [util/_sandbox/environment.py] *)
(* ================================================================== *)

Record HostMapping := mkHostMapping {
  host_ip : string;
  host_port : Z
}.

Inductive Protocol := tcp | udp.

Record PortMapping := mkPortMapping {
  container_port : Z;
  protocol : Protocol;
  mappings : list HostMapping
}.

(** [SandboxConnection]. *)
Record SandboxConnection := mkSandboxConnection {
  connection_type : string;
  command : string;
  vscode_command : option (list json);
  ports : option (list PortMapping);
  container : option string
}.

(** [SandboxEnvironmentConfigType]: a file name or a config object,
    the object by its JSON form. *)
Inductive SandboxEnvironmentConfigType :=
  | ConfigFile (file : string)
  | ConfigModel (model : json).

(** [SandboxEnvironmentSpec]. *)
Record SandboxEnvironmentSpec := mkSandboxEnvironmentSpec {
  spec_type : string;
  spec_config : option SandboxEnvironmentConfigType
}.

(** [SandboxEnvironmentType]: a spec, or one of its two shorthands. *)
Inductive SandboxEnvironmentType :=
  | OfSpec (spec : SandboxEnvironmentSpec)
  | OfStr (type : string)
  | OfTuple (type : string) (config : string).

(** [resolve_sandbox_environment]. *)
Definition resolve_sandbox_environment (sandbox : option SandboxEnvironmentType)
    : option SandboxEnvironmentSpec :=
  match sandbox with
  | Some (OfStr type) => Some (mkSandboxEnvironmentSpec type None)
  | Some (OfSpec spec) => Some spec
  | Some (OfTuple type config) =>
      Some (mkSandboxEnvironmentSpec type (Some (ConfigFile config)))
  | None => None
  end.


(* ================================================================== *)
(** * The sample display: [_display/textual/widgets/samples.py] *)
(* ================================================================== *)

Section samples.
(** [ActiveSample], of [inspect_ai.log._samples], is known to the
    display by the attributes it reads: its [id], its [execution_time]
    (a number of seconds, with [seconds_le] the order of the numbers),
    its [transcript], whether it is [completed],
    its [fails_on_error] flag and its [sandboxes] (a [dict], in
    insertion order).  Two samples are equal when they are the same
    object. *)
Context {Sample : Type} `{EqDecision Sample}.
Variable sample_id : Sample → string.
Context {Seconds : Type}.
Variable seconds_le : Seconds → Seconds → bool.
Variable execution_time : Sample → Seconds.
Variable sample_transcript : Sample → nat.
Variable completed : Sample → bool.
Variable fails_on_error : Sample → bool.
Variable sandboxes : Sample → list (string * SandboxConnection).

(** The loop of [sample_index_for_id], from position [i] on. *)
Fixpoint sample_index_from (i : Z) (samples : list Sample) (id : string) : Z :=
  match samples with
  | [] => -1
  | sample :: rest =>
      if decide (sample_id sample = id) then i
      else sample_index_from (i + 1) rest id
  end.

(** [sample_index_for_id]. *)
Definition sample_index_for_id (samples : list Sample) (id : string) : Z :=
  sample_index_from 0 samples id.

(** [sample_for_id]: [Some None] is the result [None], and [None] an
    [IndexError] out of [samples[index]]. *)
Definition sample_for_id (samples : list Sample) (id : string)
    : option (option Sample) :=
  let index := sample_index_for_id samples id in
  if decide (index ≠ -1) then Some <$> getitem samples index
  else Some None.

(** The order of [sort(key=lambda sample: sample.execution_time,
    reverse=True)]. *)
Definition longer_first (a b : Sample) : bool :=
  seconds_le (execution_time b) (execution_time a).

(** [SamplesList.set_samples], without the drawing: from the samples of
    the list, the id of the highlighted option, if any, and the new
    samples, to the new samples of the list and the index that gets the
    highlight. *)
Definition set_samples (self_samples : list Sample)
    (highlighted_id : option string) (samples : list Sample)
    : option (list Sample * option Z) :=
  highlighted_sample ←
    match highlighted_id with
    | Some id => sample_for_id self_samples id
    | None => Some None
    end;
  let copied := samples in
  let kept :=
    match highlighted_sample with
    | Some hs => if bool_decide (hs ∈ copied) then copied else copied ++ [hs]
    | None => copied
    end in
  let sorted := list_sort longer_first kept in
  Some (sorted,
        if bool_decide (0 < length sorted)%nat
        then Some match highlighted_id with
                  | Some id => sample_index_for_id sorted id
                  | None => 0
                  end
        else None).

(** ** [SampleVNC] *)

Record SampleVNC := mkSampleVNC {
  vnc_sample : option Sample;
  vnc_display : bool;
  link_text : string;
  link_url : string
}.

Section vnc.
(** [get_service_by_port] and [get_url] come from other modules. *)
Variable get_service_by_port : Z → Protocol → option string.
Variable get_url : Z → string → option string.

(** The inner loop of [SampleVNC.sync_sample]: it stops at the first
    port that is served by noVNC, has a host mapping and gets a URL. *)
Fixpoint scan_ports (port_list : list PortMapping) (self : SampleVNC)
    : SampleVNC :=
  match port_list with
  | [] => self
  | port :: rest =>
      let service := get_service_by_port (container_port port) (protocol port) in
      if bool_decide (service = Some "noVNC") then
        match mappings port with
        | host_mapping :: _ =>
            match get_url (host_port host_mapping) "noVNC" with
            | Some (String c u) =>
                mkSampleVNC (vnc_sample self) true (String c u) (String c u)
            | _ => scan_ports rest self
            end
        | [] => scan_ports rest self
        end
      else scan_ports rest self
  end.

Definition has_ports (c : SandboxConnection) : bool :=
  match ports c with
  | Some (_ :: _) => true
  | _ => false
  end.

(** [SampleVNC.sync_sample]. *)
Definition vnc_sync_sample (self : SampleVNC) (sample : Sample) : SampleVNC :=
  if decide (Some sample = vnc_sample self) then self
  else
    foldl (λ st connection, scan_ports (default [] (ports connection)) st)
      (mkSampleVNC (vnc_sample self) false (link_text self) (link_url self))
      (filter (λ c, has_ports c = true) (sandboxes sample).*2).

(** The URL a connection offers: that of its first port that is served
    by noVNC, has a host mapping and gets a URL. *)
Definition port_vnc_url (port : PortMapping) : option string :=
  if bool_decide (get_service_by_port (container_port port) (protocol port)
                  = Some "noVNC")
  then match mappings port with
       | host_mapping :: _ =>
           match get_url (host_port host_mapping) "noVNC" with
           | Some (String c u) => Some (String c u)
           | _ => None
           end
       | [] => None
       end
  else None.

Definition connection_vnc_url (c : SandboxConnection) : option string :=
  head (omap port_vnc_url (default [] (ports c))).
End vnc.

(** ** [SampleToolbar] *)

(** The toolbar: the sample it tracks and what it shows. *)
Record SampleToolbar := mkSampleToolbar {
  tb_sample : option Sample;
  tb_display : bool;
  pending_status_visible : bool;
  pending_caption : string;
  timeout_tool_display : bool;
  cancel_score_output_display : bool;
  cancel_with_error_display : bool;
  clock_started : option datetime
}.

(** The toolbar after [__init__], [compose] and [on_mount]. *)
Definition mounted_toolbar : SampleToolbar :=
  mkSampleToolbar None true false "Executing..." false false false None.

(** [last_event.pending], as a condition. *)
Definition is_pending (e : Event) : bool :=
  match pending (event_base e) with
  | Some true => true
  | _ => false
  end.

Definition is_tool_event (e : Event) : bool :=
  match e with ToolEvent _ => true | _ => false end.

Definition is_model_event (e : Event) : bool :=
  match e with ModelEvent _ _ _ _ _ _ _ _ _ _ => true | _ => false end.

(** The branches of [sync_sample] that show nothing pending. *)
Definition nothing_pending (self : SampleToolbar) : SampleToolbar :=
  mkSampleToolbar (tb_sample self) (tb_display self) false
    (pending_caption self) false (cancel_score_output_display self)
    (cancel_with_error_display self) None.

(** [SampleToolbar.sync_sample]. *)
Definition sync_sample (self : SampleToolbar) (sample : option Sample)
    (w : World) : SampleToolbar :=
  let self :=
    mkSampleToolbar sample (tb_display self) (pending_status_visible self)
      (pending_caption self) (timeout_tool_display self)
      (cancel_score_output_display self) (cancel_with_error_display self)
      (clock_started self) in
  match sample with
  | Some s =>
      if negb (completed s) then
        let self :=
          mkSampleToolbar (tb_sample self) true (pending_status_visible self)
            (pending_caption self) (timeout_tool_display self)
            true (negb (fails_on_error s)) (clock_started self) in
        match last (events (sample_transcript s) w) with
        | Some last_event =>
            if is_pending last_event then
              mkSampleToolbar (tb_sample self) (tb_display self) true
                (if is_model_event last_event
                 then "[italic]Generating...[/italic]"
                 else "[italic]Executing...[/italic]")
                (is_tool_event last_event)
                (cancel_score_output_display self)
                (cancel_with_error_display self)
                (Some (timestamp (event_base last_event)))
            else nothing_pending self
        | None => nothing_pending self
        end
      else
        nothing_pending
          (mkSampleToolbar (tb_sample self) false (pending_status_visible self)
             (pending_caption self) (timeout_tool_display self)
             (cancel_score_output_display self)
             (cancel_with_error_display self) (clock_started self))
  | None =>
      nothing_pending
        (mkSampleToolbar (tb_sample self) false (pending_status_visible self)
           (pending_caption self) (timeout_tool_display self)
           (cancel_score_output_display self)
           (cancel_with_error_display self) (clock_started self))
  end.

End samples.


(* ================================================================== *)
(** * The Groq provider: [model/_providers/groq.py] *)
(* ================================================================== *)

(** [ToolChoice]: one of the literal directives, or a [ToolFunction]. *)
Inductive ToolChoice :=
  | ChoiceLiteral (directive : string)
  | ChoiceFunction (name : string).

(** The fields of [GenerateConfig] the provider reads; numbers go to the
    request as they are and appear by their JSON form. *)
Record GenerateConfig := mkGenerateConfig {
  temperature : option json;
  max_tokens : option json;
  top_p : option json;
  stop_seqs : option (list string);
  presence_penalty : option json;
  frequency_penalty : option json;
  seed : option json;
  num_choices : option json;
  parallel_tool_calls : option bool
}.

(** [if value is not None: params[key] = value]. *)
Definition set_if_given (key : string) (value : option json)
    (params : gmap string json) : gmap string json :=
  match value with
  | Some v => <[key := v]> params
  | None => params
  end.

(** [GroqAPI.completion_params]; [if config.stop_seqs:] holds for a list
    that is there and not empty. *)
Definition completion_params (config : GenerateConfig) : gmap string json :=
  let params := ∅ in
  let params := set_if_given "temperature" (temperature config) params in
  let params := set_if_given "max_tokens" (max_tokens config) params in
  let params := set_if_given "top_p" (top_p config) params in
  let params :=
    match stop_seqs config with
    | Some ((_ :: _) as seqs) =>
        <["stop" := JArr ((λ s, JScalar (SStr s)) <$> seqs)]> params
    | _ => params
    end in
  let params := set_if_given "presence_penalty" (presence_penalty config) params in
  let params := set_if_given "frequency_penalty" (frequency_penalty config) params in
  let params := set_if_given "seed" (seed config) params in
  let params := set_if_given "n" (num_choices config) params in
  params.

(** [chat_tools], over the tools as [model_dump(exclude_none=True)]
    gives them. *)
Definition chat_tools (tools : list json) : list json :=
  (λ tool, JObj {[ "type" := JScalar (SStr "function"); "function" := tool ]})
    <$> tools.

(** [chat_tool_choice]. *)
Definition chat_tool_choice (tool_choice : ToolChoice) : json :=
  match tool_choice with
  | ChoiceFunction name =>
      JObj {[ "type" := JScalar (SStr "function");
              "function" := JObj {[ "name" := JScalar (SStr name) ]} ]}
  | ChoiceLiteral directive =>
      if decide (directive = "any") then JScalar (SStr "auto")
      else JScalar (SStr directive)
  end.

(** Is the tool choice truthy?  An empty string is not. *)
Definition tool_choice_given (tool_choice : ToolChoice) : bool :=
  match tool_choice with
  | ChoiceLiteral "" => false
  | _ => true
  end.

(** The parameters [GroqAPI.generate] passes to the client besides the
    messages and the model. *)
Definition generate_params (config : GenerateConfig) (tools : list json)
    (tool_choice : ToolChoice) : gmap string json :=
  let params := completion_params config in
  match tools with
  | [] => params
  | _ :: _ =>
      let params := <["tools" := JArr (chat_tools tools)]> params in
      let params :=
        <["tool_choice" :=
            if tool_choice_given tool_choice then chat_tool_choice tool_choice
            else JScalar (SStr "auto")]> params in
      match parallel_tool_calls config with
      | Some b => <["parallel_tool_calls" := JScalar (SBool b)]> params
      | None => params
      end
  end.

(** A choice of a Groq response, as far as the provider reads it.  The
    [tool_calls] and the [reasoning] of the message may be missing. *)
Record GroqToolCall := mkGroqToolCall {
  call_id : string;
  call_name : string;
  call_arguments : string
}.

Record GroqMessage := mkGroqMessage {
  message_content : option string;
  message_tool_calls : option (list GroqToolCall);
  message_reasoning : option string
}.

Record GroqChoice := mkGroqChoice {
  choice_index : Z;
  choice_message : GroqMessage;
  finish_reason : string
}.

(** [ChatMessageAssistant] and [ChatCompletionChoice], as built here. *)
Record ChatMessageAssistant (ToolCall : Type) := mkChatMessageAssistant {
  assistant_content : string;
  assistant_source : string;
  assistant_tool_calls : option (list ToolCall);
  assistant_reasoning : option string
}.

#[global] Arguments mkChatMessageAssistant {ToolCall}.
#[global] Arguments assistant_content {ToolCall}.
#[global] Arguments assistant_source {ToolCall}.
#[global] Arguments assistant_tool_calls {ToolCall}.
#[global] Arguments assistant_reasoning {ToolCall}.

Section groq_response.
(** [parse_tool_call] and [as_stop_reason] come from other modules, and
    so do the types [ToolCall] and [StopReason] of their results. *)
Context {ToolCall StopReason : Type}.
Variable parse_tool_call : string → string → string → list json → ToolCall.
Variable as_stop_reason : string → StopReason.

(** [chat_tool_calls]. *)
Definition chat_tool_calls (message : GroqMessage) (tools : list json)
    : option (list ToolCall) :=
  match message_tool_calls message with
  | Some ((_ :: _) as calls) =>
      Some ((λ call, parse_tool_call (call_id call) (call_name call)
                       (call_arguments call) tools) <$> calls)
  | _ => None
  end.

(** [chat_message_assistant]; [message.content or ""]. *)
Definition chat_message_assistant (message : GroqMessage) (tools : list json)
    : ChatMessageAssistant ToolCall :=
  mkChatMessageAssistant
    (match message_content message with
     | Some (String c s) => String c s
     | _ => ""
     end)
    "generate"
    (chat_tool_calls message tools)
    (message_reasoning message).

(** [GroqAPI._chat_choices_from_response], over the choices of the
    response. *)
Definition _chat_choices_from_response (choices : list GroqChoice)
    (tools : list json) : list (ChatMessageAssistant ToolCall * StopReason) :=
  let choices :=
    list_sort (λ a b, choice_index a <=? choice_index b) choices in
  (λ choice,
     (chat_message_assistant (choice_message choice) tools,
      as_stop_reason (finish_reason choice))) <$> choices.
End groq_response.


(** ** Sample data for the display *)

(** Three samples, known by number, with ids ["a"], ["b"] and ["c"] and
    running for as many seconds as their number. *)
Definition demo_id (s : nat) : string :=
  match s with
  | O => "a"
  | S O => "b"
  | _ => "c"
  end.

Definition demo_time (s : nat) : Z := Z.of_nat s.

Definition plain_connection : SandboxConnection :=
  mkSandboxConnection "docker" "docker exec -it default bash" None None None.

Definition desktop_connection : SandboxConnection :=
  mkSandboxConnection "docker" "docker exec -it desktop bash" None
    (Some [mkPortMapping 5900 tcp [mkHostMapping "0.0.0.0" 5900];
           mkPortMapping 6080 tcp [mkHostMapping "0.0.0.0" 32768]])
    (Some "desktop").

Definition demo_sandboxes (s : nat) : list (string * SandboxConnection) :=
  match s with
  | O => []
  | _ => [("desktop", desktop_connection); ("default", plain_connection)]
  end.

Definition demo_service (port : Z) (p : Protocol) : option string :=
  if port =? 6080 then Some "noVNC"
  else if port =? 5900 then Some "VNC" else None.

Definition demo_url (port : Z) (service : string) : option string :=
  if port =? 32768 then Some "http://localhost:32768?view_only=true" else None.

(** The sample world with a tool call in flight at the tail of the
    transcript of the sample. *)
Definition tool_world : World :=
  _event (transcript sample_world)
    (ToolEvent (Tool._set_task pending_call 7%nat)) sample_world.


(* ================================================================== *)
(** * Reading a serialised timestamp back *)
(* ================================================================== *)

Definition digit_value (c : ascii) : Z := Z.of_nat (nat_of_ascii c) - 48.

(** Reads [n] decimal digits, most significant first, on top of [acc]. *)
Fixpoint read_digits (n : nat) (acc : Z) (s : string) : option (Z * string) :=
  match n, s with
  | O, _ => Some (acc, s)
  | S n', String c s' =>
      if is_digit c then read_digits n' (acc * 10 + digit_value c) s' else None
  | S _, EmptyString => None
  end.

(** Reads the fraction of a second, if there is one. *)
Definition read_fraction (s : string) : option (Z * string) :=
  match s with
  | String "." s' => read_digits 6 0 s'
  | _ => Some (0, s)
  end.

(** Reads the offset that ends the string, in seconds. *)
Definition read_offset (s : string) : option Z :=
  match s with
  | String c s' =>
      sign ← (if Ascii.eqb c "+" then Some 1
              else if Ascii.eqb c "-" then Some (-1) else None);
      '(hh, r) ← read_digits 2 0 s';
      r ← eat_char ":" r;
      '(mm, r) ← read_digits 2 0 r;
      match r with
      | EmptyString => Some (sign * (hh * 3600 + mm * 60))
      | _ =>
          r ← eat_char ":" r;
          '(ss, r) ← read_digits 2 0 r;
          match r with
          | EmptyString => Some (sign * (hh * 3600 + mm * 60 + ss))
          | _ => None
          end
      end
  | EmptyString => None
  end.

(** Reads [YYYY-MM-DDTHH:MM:SS[.ffffff]] and the offset after it. *)
Definition read_iso8601 (s : string) : option datetime :=
  '(y, r) ← read_digits 4 0 s; r ← eat_char "-" r;
  '(m, r) ← read_digits 2 0 r; r ← eat_char "-" r;
  '(d, r) ← read_digits 2 0 r; r ← eat_char "T" r;
  '(hh, r) ← read_digits 2 0 r; r ← eat_char ":" r;
  '(mm, r) ← read_digits 2 0 r; r ← eat_char ":" r;
  '(ss, r) ← read_digits 2 0 r;
  '(us, r) ← read_fraction r;
  off ← read_offset r;
  Some (mkDatetime y m d hh mm ss us (Some off)).


(* ================================================================== *)
(** * Properties of the change records *)
(* ================================================================== *)

Lemma jsize_elem (l : list json) x :
  x ∈ l → (jsize x < jsize (JArr l))%nat.
Proof.
  simpl. induction 1 as [x l|x y l _ IH]; simpl in *; lia.
Qed.

Lemma jsize_lookup (m : gmap string json) k v :
  m !! k = Some v → (jsize v < jsize (JObj m))%nat.
Proof.
  intros Hk. simpl.
  rewrite (map_fold_delete_L _ _ k v m); [lia| |done].
  intros; lia.
Qed.

(** Induction on a tree, with the property at hand for every element of
    a sequence and every value of a mapping. *)
Lemma json_tree_ind (P : json → Prop) :
  (∀ s, P (JScalar s)) →
  (∀ l, Forall P l → P (JArr l)) →
  (∀ m, map_Forall (λ _, P) m → P (JObj m)) →
  ∀ j, P j.
Proof.
  intros Hs Ha Ho j.
  remember (jsize j) as n eqn:Hn.
  revert j Hn. induction n as [n IH] using lt_wf_ind. intros j ->.
  destruct j as [s|l|m]; [apply Hs|apply Ha|apply Ho].
  - apply Forall_forall. intros x Hx. eapply IH; [|done]. by apply jsize_elem.
  - intros k v Hk. eapply IH; [|done]. by eapply jsize_lookup.
Qed.

Lemma apply_changes_cons c cs j :
  apply_changes (c :: cs) j = apply_change c j ≫= apply_changes cs.
Proof. done. Qed.

Lemma apply_changes_app cs1 cs2 j :
  apply_changes (cs1 ++ cs2) j = apply_changes cs1 j ≫= apply_changes cs2.
Proof.
  revert j. induction cs1 as [|c cs1 IH]; intros j; simpl; [done|].
  destruct (apply_change c j) as [j'|]; simpl; [apply IH|done].
Qed.

Lemma set_child_get_id k j c : get_child k j = Some c → set_child k c j = Some j.
Proof.
  destruct k as [s|i], j as [x|l|m]; simpl; try done; intros H.
  - by rewrite insert_id.
  - by rewrite list_insert_id.
Qed.

Lemma get_child_set k j c x j' :
  get_child k j = Some c → set_child k x j = Some j' → get_child k j' = Some x.
Proof.
  destruct k as [s|i], j as [y|l|m]; simpl; try done; intros H [= <-]; simpl.
  - by rewrite lookup_insert_eq.
  - apply list_lookup_insert_eq. by eapply lookup_lt_Some.
Qed.

Lemma set_child_set k j x y j' :
  set_child k x j = Some j' → set_child k y j' = set_child k y j.
Proof.
  destruct k as [s|i], j as [z|l|m]; simpl; try done; intros [= <-]; simpl.
  - by rewrite insert_insert_eq.
  - by rewrite list_insert_insert_eq.
Qed.

(** Below the last path step, or for a [Replace], a record is applied by
    descent into the child it names. *)
Lemma apply_at_descend k p o v j :
  p ≠ [] ∨ o = Replace →
  apply_at (k :: p) o v j =
    get_child k j ≫= λ c, apply_at p o v c ≫= λ c', set_child k c' j.
Proof. intros [Hp| ->]; destruct p; try done; by destruct o. Qed.

Lemma apply_change_under k a j c c1 :
  get_child k j = Some c →
  apply_change a c = Some c1 →
  apply_change (under k a) j = set_child k c1 j.
Proof.
  intros Hget Ha. destruct a as [o p v]. unfold apply_change in *.
  cbn [under op path value] in *.
  rewrite apply_at_descend.
  - rewrite Hget. cbn [mbind option_bind]. by rewrite Ha.
  - destruct p; [right|by left]. by destruct o.
Qed.

(** The records of a child, seen from its parent, change that child and
    nothing else. *)
Lemma apply_changes_under k cs j c c' :
  get_child k j = Some c →
  apply_changes cs c = Some c' →
  apply_changes (under k <$> cs) j = set_child k c' j.
Proof.
  revert j c. induction cs as [|a cs IH]; intros j c Hget Hcs.
  - injection Hcs as <-. symmetry. by apply set_child_get_id.
  - rewrite apply_changes_cons in Hcs.
    destruct (apply_change a c) as [c1|] eqn:Ha; [|done].
    rewrite fmap_cons, apply_changes_cons, (apply_change_under _ _ _ _ _ Hget Ha).
    destruct (set_child k c1 j) as [j1|] eqn:Hset.
    + cbn [mbind option_bind] in *.
      rewrite (IH j1 c1); [by eapply set_child_set|by eapply get_child_set|done].
    + destruct k, j; simpl in *; done.
Qed.

Lemma apply_seq_adds i pre l :
  length pre = i →
  apply_changes (seq_adds i l) (JArr pre) = Some (JArr (pre ++ l)).
Proof.
  unfold seq_adds. revert i pre. induction l as [|x l IH]; intros i pre Hi.
  - by rewrite app_nil_r.
  - rewrite imap_cons, apply_changes_cons. unfold apply_change at 1; simpl.
    rewrite Nat.add_0_r. destruct (decide (i ≤ length pre)%nat); [|lia].
    rewrite take_ge, drop_ge by lia. simpl.
    rewrite (imap_ext _ (λ n y, mkChange Add [KIndex (S i + n)] (Some y))).
    + rewrite (IH (S i) (pre ++ [x])); [by rewrite <-app_assoc|].
      rewrite length_app; simpl; lia.
    + intros n y _. simpl. do 3 f_equal. lia.
Qed.

Lemma apply_seq_removes i pre la :
  length pre = i →
  apply_changes (seq_removes i (length la)) (JArr (pre ++ la)) = Some (JArr pre).
Proof.
  unfold seq_removes. intros Hi. induction la as [|x la IH] using rev_ind.
  - by rewrite app_nil_r.
  - rewrite length_app; simpl. rewrite Nat.add_1_r, seq_S, reverse_snoc.
    rewrite fmap_cons, apply_changes_cons. unfold apply_change at 1; simpl.
    rewrite app_assoc.
    replace (i + length la)%nat with (length (pre ++ la))
      by (rewrite length_app; lia).
    rewrite list_lookup_middle by done. rewrite delete_middle, app_nil_r.
    apply IH.
Qed.

Section seq_roundtrip.
Variable rec : json → json → list JsonChange.

Lemma apply_seq_changes i pre la lb :
  Forall (λ a, ∀ b, apply_changes (rec a b) a = Some b) la →
  length pre = i →
  apply_changes (seq_changes rec i la lb) (JArr (pre ++ la))
    = Some (JArr (pre ++ lb)).
Proof.
  intros Hla. revert i pre lb.
  induction Hla as [|x la Hx _ IH]; intros i pre lb Hi.
  - simpl. rewrite app_nil_r. by apply apply_seq_adds.
  - destruct lb as [|y lb].
    + rewrite app_nil_r. by apply (apply_seq_removes i pre (x :: la)).
    + cbn [seq_changes]. rewrite apply_changes_app.
      rewrite (apply_changes_under (KIndex i) _ (JArr (pre ++ x :: la)) x y).
      * simpl. subst i. rewrite insert_app_r_alt, Nat.sub_diag by done. simpl.
        rewrite (cons_middle y pre la), (cons_middle y pre lb), !app_assoc.
        apply IH. rewrite length_app; simpl; lia.
      * simpl. subst i. by apply list_lookup_middle.
      * apply Hx.
Qed.

Lemma seq_changes_refl i la :
  Forall (λ a, rec a a = []) la → seq_changes rec i la la = [].
Proof.
  intros Hla. revert i. induction Hla as [|x la Hx _ IH]; intros i; [done|].
  cbn [seq_changes]. by rewrite Hx, IH.
Qed.
End seq_roundtrip.

Lemma elem_of_map_to_list_keys (m : gmap string json) k :
  k ∈ (map_to_list m).*1 ↔ is_Some (m !! k).
Proof.
  rewrite list_elem_of_fmap. split.
  - intros [[k' v] [-> Hin]]. apply elem_of_map_to_list in Hin. by exists v.
  - intros [v Hv]. exists (k, v). split; [done|]. by apply elem_of_map_to_list.
Qed.

Section obj_roundtrip.
Variable rec : json → json → list JsonChange.
Variables ma mb : gmap string json.

Lemma obj_changes_foldr :
  obj_changes rec ma mb =
    foldr (old_key_step rec mb) [] (map_to_list ma)
    ++ foldr (new_key_step ma) [] (map_to_list mb).
Proof.
  unfold obj_changes. rewrite !map_fold_foldr. f_equal.
  - apply foldr_ext; [|done..]. by intros [??] ?.
  - apply foldr_ext; [|done..]. by intros [??] ?.
Qed.

(** First pass: after the records of the old keys [kvs], each of them
    holds what the new mapping holds, and the other keys are untouched. *)
Lemma apply_old_keys kvs (m : gmap string json) :
  NoDup kvs.*1 →
  (∀ k va, (k, va) ∈ kvs →
     m !! k = Some va ∧ ∀ b, apply_changes (rec va b) va = Some b) →
  ∃ m', apply_changes (foldr (old_key_step rec mb) [] kvs) (JObj m)
          = Some (JObj m')
      ∧ ∀ k, m' !! k = if decide (k ∈ kvs.*1) then mb !! k else m !! k.
Proof.
  revert m. induction kvs as [|[k va] kvs IH]; intros m Hnd Hin.
  - exists m. split; [done|]. intros k. by rewrite decide_False by set_solver.
  - rewrite fmap_cons in Hnd. apply NoDup_cons in Hnd as [Hk Hnd].
    destruct (Hin k va) as [Hmk Hrt]; [by left|].
    assert (∃ m1, apply_changes (old_key_step rec mb (k, va) []) (JObj m)
                    = Some (JObj m1)
              ∧ m1 !! k = mb !! k ∧ ∀ k', k' ≠ k → m1 !! k' = m !! k')
      as (m1 & Hm1 & Hm1k & Hm1o).
    { unfold old_key_step; simpl. rewrite app_nil_r.
      destruct (mb !! k) as [vb|] eqn:Hb.
      - exists (<[k:=vb]> m). split_and!.
        + by rewrite (apply_changes_under (KName k) _ (JObj m) va vb).
        + by rewrite lookup_insert_eq.
        + intros k' ?. by rewrite lookup_insert_ne.
      - exists (delete k m). split_and!.
        + cbn. by rewrite Hmk.
        + by rewrite lookup_delete_eq.
        + intros k' ?. by rewrite lookup_delete_ne. }
    destruct (IH m1 Hnd) as (m' & Hm' & Hlk).
    { intros k' va' Hin'. destruct (Hin k' va') as [Hmk' Hrt']; [by right|].
      split; [|done]. rewrite Hm1o; [done|].
      intros ->. apply Hk. apply list_elem_of_fmap. by exists (k, va'). }
    exists m'. split.
    + cbn [foldr]. unfold old_key_step at 1.
      unfold old_key_step in Hm1; simpl in Hm1. rewrite app_nil_r in Hm1.
      rewrite apply_changes_app. cbn [fst snd]. by rewrite Hm1.
    + intros k'. rewrite Hlk, fmap_cons. cbn [fst].
      destruct (decide (k' = k)) as [->|Hne].
      * rewrite decide_False by done. rewrite decide_True by set_solver. done.
      * rewrite Hm1o by done. repeat case_decide; set_solver.
Qed.

(** Second pass: the keys only the new mapping has are inserted. *)
Lemma apply_new_keys kvs (m : gmap string json) :
  (∀ k vb, (k, vb) ∈ kvs → mb !! k = Some vb) →
  ∃ m', apply_changes (foldr (new_key_step ma) [] kvs) (JObj m) = Some (JObj m')
      ∧ ∀ k, m' !! k =
          if decide (k ∈ kvs.*1 ∧ ma !! k = None) then mb !! k else m !! k.
Proof.
  revert m. induction kvs as [|[k vb] kvs IH]; intros m Hin.
  - exists m. split; [done|]. intros k. rewrite decide_False; [done|]. set_solver.
  - cbn [foldr]. unfold new_key_step at 1. cbn [fst snd].
    assert (mb !! k = Some vb) as Hbk by (apply Hin; by left).
    destruct (ma !! k) as [va|] eqn:Hak.
    + destruct (IH m) as (m' & Hm' & Hlk); [intros; apply Hin; by right|].
      exists m'. split; [done|]. intros k'. rewrite Hlk, fmap_cons. cbn [fst].
      repeat case_decide; try done; set_solver.
    + destruct (IH (<[k:=vb]> m)) as (m' & Hm' & Hlk);
        [intros; apply Hin; by right|].
      exists m'. split; [by rewrite apply_changes_cons|].
      intros k'. rewrite Hlk, fmap_cons. cbn [fst].
      destruct (decide (k' = k)) as [->|Hne].
      * rewrite lookup_insert_eq.
        rewrite (decide_True (P:=k ∈ k :: kvs.*1 ∧ _)) by set_solver.
        by case_decide.
      * rewrite lookup_insert_ne by done. repeat case_decide; set_solver.
Qed.

Lemma apply_obj_changes :
  map_Forall (λ _ a, ∀ b, apply_changes (rec a b) a = Some b) ma →
  apply_changes (obj_changes rec ma mb) (JObj ma) = Some (JObj mb).
Proof.
  intros Hma. rewrite obj_changes_foldr, apply_changes_app.
  destruct (apply_old_keys (map_to_list ma) ma) as (m1 & -> & Hm1).
  { apply NoDup_fst_map_to_list. }
  { intros k va Hin%elem_of_map_to_list. split; [done|]. by eapply Hma. }
  cbn [mbind option_bind].
  destruct (apply_new_keys (map_to_list mb) m1) as (m2 & -> & Hm2).
  { by intros k vb Hin%elem_of_map_to_list. }
  do 2 f_equal. apply map_eq. intros k. rewrite Hm2, Hm1.
  destruct (ma !! k) as [va|] eqn:Hak.
  - rewrite decide_False by naive_solver.
    rewrite decide_True; [done|]. apply elem_of_map_to_list_keys. by exists va.
  - destruct (decide (k ∈ (map_to_list mb).*1)) as [Hb|Hb].
    + by rewrite decide_True.
    + rewrite decide_False by naive_solver.
      rewrite decide_False.
      * symmetry. apply eq_None_not_Some. by rewrite <-elem_of_map_to_list_keys.
      * rewrite elem_of_map_to_list_keys, Hak. by intros [??].
Qed.
End obj_roundtrip.

Lemma obj_changes_refl rec (m : gmap string json) :
  map_Forall (λ _ a, rec a a = []) m → obj_changes rec m m = [].
Proof.
  intros Hm. rewrite obj_changes_foldr.
  assert (∀ kvs, (∀ k v, (k, v) ∈ kvs → m !! k = Some v) →
     foldr (old_key_step rec m) [] kvs = [] ∧ foldr (new_key_step m) [] kvs = [])
    as Hall.
  { induction kvs as [|[k v] kvs IH]; intros Hin; [done|].
    destruct IH as [IH1 IH2]; [intros; apply Hin; by right|].
    cbn [foldr]. rewrite IH1, IH2. unfold old_key_step, new_key_step. cbn [fst snd].
    rewrite (Hin k v) by (by left). split; [|done].
    by rewrite (Hm k v) by (apply Hin; by left). }
  destruct (Hall (map_to_list m)) as [-> ->]; [|done].
  by intros k v Hin%elem_of_map_to_list.
Qed.

Lemma json_changes_roundtrip a b :
  apply_changes (json_changes a b) a = Some b.
Proof.
  revert b. induction a as [x|la IH|ma IH] using json_tree_ind; intros b.
  - destruct b as [y|lb|mb]; simpl; try done. by case_decide; subst.
  - destruct b as [y|lb|mb]; simpl; try done.
    apply (apply_seq_changes json_changes 0 [] la lb IH). done.
  - destruct b as [y|lb|mb]; simpl; try done.
    by apply apply_obj_changes.
Qed.

Lemma json_changes_refl a : json_changes a a = [].
Proof.
  induction a as [x|la IH|ma IH] using json_tree_ind; simpl.
  - by rewrite decide_True.
  - by apply seq_changes_refl.
  - by apply obj_changes_refl.
Qed.

(** The diff is empty exactly when the two snapshots are equal. *)
Lemma json_changes_nil_iff a b : json_changes a b = [] ↔ a = b.
Proof.
  split.
  - intros Hnil. pose proof (json_changes_roundtrip a b) as Hrt.
    rewrite Hnil in Hrt. by injection Hrt.
  - intros ->. apply json_changes_refl.
Qed.

(** C6. For every pair of snapshots [a] and [b] of a tree of mappings,
    sequences and scalars, applying to [a] the change records of the diff
    of [a] against [b] gives back exactly [b], and the diff of a snapshot
    against itself is the empty list. *)
Theorem json_changes_roundtrip_and_noop :
  ∀ a b : json,
    apply_changes (json_changes a b) a = Some b ∧ json_changes a a = [].
Proof.
  intros a b. split; [apply json_changes_roundtrip|apply json_changes_refl].
Qed.


(* ================================================================== *)
(** * Properties of the tool-call event *)
(* ================================================================== *)

Section tool_event.
Context {E : Type}.
Implicit Types (te : Tool.ToolEvent E) (req : gset Task).

Lemma cancel_no_task te req :
  Tool._task te = None → Tool._cancel te req = (te, req).
Proof. intros H. unfold Tool._cancel. by rewrite H. Qed.

Lemma cancel_with_task te req task :
  Tool._task te = Some task →
  Tool.cancelled (Tool._cancel te req).1 = true
  ∧ (Tool._cancel te req).2 = {[task]} ∪ req
  ∧ pending (Tool.base (Tool._cancel te req).1) = pending (Tool.base te).
Proof. intros H. unfold Tool._cancel. by rewrite H. Qed.

(** A call keeps the task handle unless it is [_set_task], and keeps the
    marker unless it is [_cancel] on an event with a handle. *)
Lemma run_call_cancelled (c : Tool.call) (st : Tool.ToolEvent E * gset Task) :
  Tool.cancelled (Tool.run_call c st).1 = true →
  Tool.cancelled st.1 = true ∨ (c = Tool.Call_cancel ∧ is_Some (Tool._task st.1)).
Proof.
  destruct st as [te req], c as [res trunc err evs|task|]; simpl; auto.
  unfold Tool._cancel. destruct (Tool._task te) as [task|] eqn:Ht; simpl; auto.
Qed.

Lemma run_calls_snoc (cs : list Tool.call) c (st : Tool.ToolEvent E * gset Task) :
  Tool.run_calls (cs ++ [c]) st = Tool.run_call c (Tool.run_calls cs st).
Proof. unfold Tool.run_calls. by rewrite foldl_snoc. Qed.

(** The marker is only ever set by a [_cancel] that found a task handle. *)
Lemma cancelled_has_cause (cs : list Tool.call) (st : Tool.ToolEvent E * gset Task) :
  Tool.cancelled st.1 = false →
  Tool.cancelled (Tool.run_calls cs st).1 = true →
  ∃ pre post, cs = pre ++ Tool.Call_cancel :: post
            ∧ is_Some (Tool._task (Tool.run_calls pre st).1).
Proof.
  intros Hst. induction cs as [|c cs IH] using rev_ind.
  - simpl. intros H. congruence.
  - rewrite run_calls_snoc. intros H.
    apply run_call_cancelled in H as [H|[-> Htask]].
    + destruct (IH H) as (pre & post & -> & Hpre).
      exists pre, (post ++ [c]). split; [|done]. by rewrite <-app_assoc.
    + by exists cs, [].
Qed.

End tool_event.

(** C2, as the code has it. [_cancel] looks at the task handle and never
    at [pending]: without a handle it changes nothing; with a handle it
    sets the cancelled marker and asks for the cancellation of the task,
    on a pending event as on a resolved one, and the marker is still set
    once [_set_result] has cleared [pending]. *)
Theorem cancel_keyed_on_task_handle :
  ∀ (te : Tool.ToolEvent Event) (req : gset Task),
    match Tool._task te with
    | None => Tool._cancel te req = (te, req)
    | Some task =>
        Tool.cancelled (Tool._cancel te req).1 = true
        ∧ task ∈ (Tool._cancel te req).2
        ∧ ∀ res trunc err evs,
            let te' := Tool._set_result (Tool._cancel te req).1 res trunc err evs in
            Tool.cancelled te' = true ∧ pending (Tool.base te') = None
    end.
Proof.
  intros te req. destruct (Tool._task te) as [task|] eqn:Ht.
  - destruct (cancel_with_task te req task Ht) as (Hc & Hreq & _).
    split_and!; [done|rewrite Hreq; set_solver|].
    intros res trunc err evs. simpl. split; [|done].
    unfold Tool._cancel. by rewrite Ht.
  - by apply cancel_no_task.
Qed.

(** C2 fails as stated: an event that is resolved ([pending] cleared) and
    has its task handle gets the cancelled marker from [_cancel]. *)
Lemma cancel_resolved_event_sets_marker :
  pending (Tool.base resolved_call) = None
  ∧ Tool.cancelled resolved_call = false
  ∧ Tool.cancelled (Tool._cancel resolved_call ∅).1 = true
  ∧ Tool._cancel resolved_call ∅ ≠ (resolved_call, ∅).
Proof. split_and!; [done..|]. intros [=]. Qed.

(** C3, as the code has it. [_set_result] stores the result, the
    truncation range, the error and the nested events and clears
    [pending]; [_set_task] and [_cancel] leave [pending] as it is; and a
    second [_set_result] is accepted and overwrites what the first one
    stored. *)
Theorem set_result_resolves_and_overwrites :
  ∀ (te : Tool.ToolEvent Event) res trunc err evs,
    let te' := Tool._set_result te res trunc err evs in
    Tool.result te' = res ∧ Tool.truncated te' = trunc
    ∧ Tool.error te' = err ∧ Tool.events te' = evs
    ∧ pending (Tool.base te') = None
    ∧ (∀ task, pending (Tool.base (Tool._set_task te task)) = pending (Tool.base te))
    ∧ (∀ req, pending (Tool.base (Tool._cancel te req).1) = pending (Tool.base te))
    ∧ (∀ res2 trunc2 err2 evs2,
         Tool._set_result te' res2 trunc2 err2 evs2
         = Tool._set_result te res2 trunc2 err2 evs2).
Proof.
  intros te res trunc err evs. simpl. split_and!; try done.
  intros req. unfold Tool._cancel. by destruct (Tool._task te).
Qed.

(** C3 fails as stated: a second resolution is neither rejected nor
    without effect, it replaces the stored result. *)
Lemma second_set_result_overwrites :
  let te1 := Tool._set_result pending_call (ResultStr "first") None None [] in
  let te2 := Tool._set_result te1 (ResultStr "second") (Some (0, 10)) None [] in
  Tool.result te1 = ResultStr "first"
  ∧ Tool.result te2 = ResultStr "second"
  ∧ te2 ≠ te1.
Proof. simpl. split_and!; [done..|]. intros [=]. Qed.

(** C10. On a tool-call event that has no task handle and no marker,
    [_cancel] does nothing and the [cancelled] property stays false; and
    whatever calls follow, [cancelled] is true only after a [_cancel]
    that ran while a task handle was present. *)
Theorem cancel_without_task_handle :
  ∀ (te : Tool.ToolEvent Event) (req : gset Task) (cs : list Tool.call),
    Tool._task te = None →
    Tool.cancelled te = false →
    Tool._cancel te req = (te, req)
    ∧ Tool.cancelled (Tool._cancel te req).1 = false
    ∧ (Tool.cancelled (Tool.run_calls cs (te, req)).1 = true →
       ∃ pre post, cs = pre ++ Tool.Call_cancel :: post
         ∧ is_Some (Tool._task (Tool.run_calls pre (te, req)).1)).
Proof.
  intros te req cs Ht Hc. rewrite (cancel_no_task te req Ht).
  split_and!; [done..|]. by apply cancelled_has_cause.
Qed.

Lemma cancel_without_task_handle_witness :
  Tool._cancel pending_call ∅ = (pending_call, ∅)
  ∧ Tool.cancelled (Tool._cancel pending_call ∅).1 = false
  ∧ (Tool.cancelled
       (Tool.run_calls [Tool.Call_cancel; Tool.Call_set_task 7%nat; Tool.Call_cancel]
          (pending_call, ∅)).1 = true →
     ∃ pre post,
       [Tool.Call_cancel; Tool.Call_set_task 7%nat; Tool.Call_cancel]
         = pre ++ Tool.Call_cancel :: post
       ∧ is_Some (Tool._task (Tool.run_calls pre (pending_call, ∅)).1)).
Proof.
  apply (cancel_without_task_handle pending_call ∅
           [Tool.Call_cancel; Tool.Call_set_task 7%nat; Tool.Call_cancel]);
    reflexivity.
Defined.


(* ================================================================== *)
(** * Properties of the transcript *)
(* ================================================================== *)

Lemma events_event self e w r :
  events r (_event self e w) = events r w ++ (if decide (r = self) then [e] else []).
Proof.
  unfold events, _event; simpl. case_decide; [done|by rewrite app_nil_r].
Qed.

Lemma name_event self e w r :
  name (heap (_event self e w) r) = name (heap w r).
Proof. unfold _event; simpl. by case_decide. Qed.

Lemma transcript_event self e w : transcript (_event self e w) = transcript w.
Proof. done. Qed.

Lemma heap_eq_event t e w w' :
  heap_eq w w' → heap_eq (_event t e w) (_event t e w').
Proof. intros H r. unfold _event; simpl. rewrite !H. done. Qed.

Lemma heap_eq_events w w' r : heap_eq w w' → events r w = events r w'.
Proof. intros H. unfold events. by rewrite H. Qed.

Lemma appends_cons t e es w :
  appends ((t, e) :: es) w = appends es (_event t e w).
Proof. done. Qed.

Lemma appends_app es1 es2 w :
  appends (es1 ++ es2) w = appends es2 (appends es1 w).
Proof. unfold appends. by rewrite foldl_app. Qed.

Lemma heap_eq_appends es w w' :
  heap_eq w w' → heap_eq (appends es w) (appends es w').
Proof.
  revert w w'. induction es as [|[t e] es IH]; intros w w' H; [done|].
  rewrite !appends_cons. apply IH. by apply heap_eq_event.
Qed.

(** A run of appends adds, to each transcript, the events sent to it and
    in the order they were sent. *)
Lemma events_appends es w r :
  events r (appends es w) = events r w ++ sent_to r es.
Proof.
  revert w. induction es as [|[t e] es IH]; intros w.
  - simpl. by rewrite app_nil_r.
  - rewrite appends_cons, IH, events_event. unfold sent_to. simpl.
    rewrite <-app_assoc. f_equal. by repeat case_decide; subst.
Qed.

Lemma name_appends es w r :
  name (heap (appends es w) r) = name (heap w r).
Proof.
  revert w. induction es as [|[t e] es IH]; intros w; [done|].
  by rewrite appends_cons, IH, name_event.
Qed.

Lemma step_marks_app nm type l1 l2 :
  step_marks nm type (l1 ++ l2) = step_marks nm type l1 ++ step_marks nm type l2.
Proof. unfold step_marks. apply omap_app. Qed.

(** ** The code after the [yield] of the two trackers *)

Lemma track_store_exit_events before w r :
  events r (cm_exit track_store_changes before w)
  = events r w ++ store_exit_events before w r.
Proof.
  unfold store_exit_events; simpl.
  destruct (store_changes before (store w)) as [|c cs].
  - by rewrite app_nil_r.
  - apply events_event.
Qed.

Lemma track_state_exit_events SS type frame w r :
  events r (cm_exit (track_state_changes SS type) frame w)
  = events r w ++ state_exit_events frame w r.
Proof.
  unfold state_exit_events; simpl. destruct frame as [before|].
  - destruct (json_changes before (state w)) as [|c cs].
    + by rewrite app_nil_r.
    + apply events_event.
  - by rewrite app_nil_r.
Qed.

Lemma step_marks_store_exit nm type before w r :
  step_marks nm type (store_exit_events before w r) = [].
Proof.
  unfold store_exit_events.
  destruct (store_changes before (store w)); [done|]. by case_decide.
Qed.

Lemma step_marks_state_exit nm type frame w r :
  step_marks nm type (state_exit_events frame w r) = [].
Proof.
  unfold state_exit_events. destruct frame as [before|]; [|done].
  destruct (json_changes before (state w)); [done|]. by case_decide.
Qed.

(** The trackers, too, only ever append. *)
Lemma track_store_exit_appends before w :
  ∃ es, cm_exit track_store_changes before w = appends es w.
Proof.
  simpl. destruct (store_changes before (store w)) as [|c cs].
  - by exists [].
  - by exists [(transcript w, StoreEvent (fresh_base w) (c :: cs))].
Qed.

Lemma track_state_exit_appends SS type frame w :
  ∃ es, cm_exit (track_state_changes SS type) frame w = appends es w.
Proof.
  simpl. destruct frame as [before|]; [|by exists []].
  destruct (json_changes before (state w)) as [|c cs].
  - by exists [].
  - by exists [(transcript w, StateEvent (fresh_base w) (c :: cs))].
Qed.

(** [with] over one of the generators, by the outcome of its body. *)
Lemma with_unfold {F} (cm : ContextManager F) body w o w2 :
  body (cm_enter cm w).2 = (o, w2) →
  with_ cm body w =
    (o, match o with
        | Returned => cm_exit cm (cm_enter cm w).1 w2
        | Raised _ => w2
        end).
Proof.
  unfold with_. destruct (cm_enter cm w) as [f w1]; simpl.
  intros ->. by destruct o.
Qed.

Lemma with_track_store body w o w1 :
  body w = (o, w1) →
  with_ track_store_changes body w =
    (o, match o with
        | Returned => cm_exit track_store_changes (store w) w1
        | Raised _ => w1
        end).
Proof. intros H. by rewrite (with_unfold track_store_changes body w o w1). Qed.

Lemma with_track_state SS type body w o w1 :
  body w = (o, w1) →
  with_ (track_state_changes SS type) body w =
    (o, match o with
        | Returned =>
            cm_exit (track_state_changes SS type)
              (if state_tracking_engaged SS type w then Some (state w) else None) w1
        | Raised _ => w1
        end).
Proof.
  intros H. rewrite (with_unfold (track_state_changes SS type) body w o w1).
  - simpl. by destruct (state_tracking_engaged SS type w).
  - simpl. by destruct (state_tracking_engaged SS type w).
Qed.

(** C4, as the code has it. Around scoped work that leaves the store
    snapshot as it was, no store-change event is appended. When the
    snapshots differ and the work returns, exactly one store-change event
    is appended, to the current transcript, and it carries their diff,
    which is not empty. When the work raises or is cancelled, the code
    after the [yield] does not run and nothing is appended. *)
Theorem track_store_changes_by_outcome :
  ∀ (body : Body) (w : World) (o : Outcome) (w1 : World),
    body w = (o, w1) →
    let w' := (with_ track_store_changes body w).2 in
    (with_ track_store_changes body w).1 = o
    ∧ (store w = store w1 → w' = w1)
    ∧ match o with
      | Returned =>
          store w ≠ store w1 →
          json_changes (store w) (store w1) ≠ []
          ∧ ∀ r, events r w' =
                 events r w1 ++
                 (if decide (r = transcript w1)
                  then [StoreEvent (fresh_base w1)
                          (json_changes (store w) (store w1))]
                  else [])
      | Raised _ => w' = w1
      end.
Proof.
  intros body w o w1 Hbody. cbn zeta. rewrite (with_track_store _ _ _ _ Hbody).
  cbn [fst snd]. split_and!; [done| |].
  - intros Heq. destruct o; [|done]. simpl. unfold store_changes.
    by rewrite Heq, json_changes_refl.
  - destruct o; [|done]. intros Hne.
    assert (json_changes (store w) (store w1) ≠ []) as Hch
      by (by rewrite json_changes_nil_iff).
    split; [done|]. intros r. rewrite track_store_exit_events.
    f_equal. unfold store_exit_events, store_changes.
    by destruct (json_changes (store w) (store w1)).
Qed.

Lemma track_store_changes_by_outcome_witness :
  let w' := (with_ track_store_changes store_and_info world0).2 in
  (with_ track_store_changes store_and_info world0).1 = Returned
  ∧ (store world0 = store (store_and_info world0).2 → w' = (store_and_info world0).2)
  ∧ (store world0 ≠ store (store_and_info world0).2 →
     json_changes (store world0) (store (store_and_info world0).2) ≠ []
     ∧ ∀ r, events r w' =
            events r (store_and_info world0).2 ++
            (if decide (r = transcript (store_and_info world0).2)
             then [StoreEvent (fresh_base (store_and_info world0).2)
                     (json_changes (store world0) (store (store_and_info world0).2))]
             else [])).
Proof.
  apply (track_store_changes_by_outcome store_and_info world0 Returned
           (store_and_info world0).2).
  reflexivity.
Defined.

(** C4 fails as stated: scoped work that changes the store and then
    raises leaves the transcript without a store-change event. *)
Lemma store_change_lost_on_raise :
  let w' := (with_ track_store_changes store_then_raise world0).2 in
  store world0 ≠ store w'
  ∧ events (transcript w') w' = [].
Proof.
  simpl. split; [|done]. unfold store1. intros [=].
Qed.

Lemma state_tracking_engaged_iff SS type w :
  state_tracking_engaged SS type w = true
  ↔ name (heap w (transcript w)) = SS ∧ type ≠ Some "solver".
Proof.
  unfold state_tracking_engaged.
  rewrite andb_true_iff, negb_true_iff, bool_decide_eq_true, bool_decide_eq_false.
  done.
Qed.

(** C5, as the code has it. State-change tracking is engaged exactly
    when the current transcript bears the reserved name of the sample
    scope and the type of the step is not ["solver"]. Not engaged, the
    wrapper is the scoped work and nothing more. Engaged, and with work
    that returns, it appends one state-change event, carrying the diff,
    exactly when the task state differs across the scope; with work that
    raises or is cancelled it appends nothing. *)
Theorem track_state_changes_engagement :
  ∀ (SS : string) (type : option string) (body : Body)
    (w : World) (o : Outcome) (w1 : World),
    body w = (o, w1) →
    let engaged := state_tracking_engaged SS type w in
    let w' := (with_ (track_state_changes SS type) body w).2 in
    (engaged = true ↔ name (heap w (transcript w)) = SS ∧ type ≠ Some "solver")
    ∧ (engaged = false → with_ (track_state_changes SS type) body w = body w)
    ∧ (engaged = true →
       match o with
       | Returned =>
           (state w = state w1 → w' = w1)
           ∧ (state w ≠ state w1 →
              json_changes (state w) (state w1) ≠ []
              ∧ ∀ r, events r w' =
                     events r w1 ++
                     (if decide (r = transcript w1)
                      then [StateEvent (fresh_base w1)
                              (json_changes (state w) (state w1))]
                      else []))
       | Raised _ => w' = w1
       end).
Proof.
  intros SS type body w o w1 Hbody. cbn zeta.
  rewrite (with_track_state _ _ _ _ _ _ Hbody). cbn [fst snd].
  split_and!.
  - apply state_tracking_engaged_iff.
  - intros ->. rewrite Hbody. by destruct o.
  - intros ->. destruct o; [|done]. split.
    + intros Heq. simpl. by rewrite Heq, json_changes_refl.
    + intros Hne.
      assert (json_changes (state w) (state w1) ≠ []) as Hch
        by (by rewrite json_changes_nil_iff).
      split; [done|]. intros r. rewrite track_state_exit_events.
      f_equal. unfold state_exit_events.
      by destruct (json_changes (state w) (state w1)).
Qed.

Lemma track_state_changes_engagement_witness :
  let w1 := (state_and_info sample_world).2 in
  let engaged := state_tracking_engaged "sample" None sample_world in
  let w' := (with_ (track_state_changes "sample" None) state_and_info sample_world).2 in
  (engaged = true
   ↔ name (heap sample_world (transcript sample_world)) = "sample"
     ∧ None ≠ Some "solver")
  ∧ (engaged = false →
     with_ (track_state_changes "sample" None) state_and_info sample_world
     = state_and_info sample_world)
  ∧ (engaged = true →
     (state sample_world = state w1 → w' = w1)
     ∧ (state sample_world ≠ state w1 →
        json_changes (state sample_world) (state w1) ≠ []
        ∧ ∀ r, events r w' =
               events r w1 ++
               (if decide (r = transcript w1)
                then [StateEvent (fresh_base w1)
                        (json_changes (state sample_world) (state w1))]
                else []))).
Proof.
  apply (track_state_changes_engagement "sample" None state_and_info
           sample_world Returned (state_and_info sample_world).2).
  reflexivity.
Defined.

(** C5 fails as stated: with tracking engaged, scoped work that changes
    the task state and then raises leaves no state-change event. *)
Lemma state_change_lost_on_raise :
  let w' := (with_ (track_state_changes "sample" None) state_then_raise
               sample_world).2 in
  state_tracking_engaged "sample" None sample_world = true
  ∧ state sample_world ≠ state w'
  ∧ events (transcript w') w' = [].
Proof.
  simpl. split_and!; [done| |done]. unfold store1. intros [=].
Qed.

(** What [step] adds to its own transcript, given what the body added. *)
Lemma step_events SS self nm type body w o w2 :
  body (_event self (StepEvent (fresh_base w) Begin type nm) w) = (o, w2) →
  ∃ tail,
    (step SS self nm type body w).1 = o
    ∧ events self (step SS self nm type body w).2
      = events self w2 ++ tail
    ∧ step_marks nm type tail
      = match o with Returned => [End_] | Raised _ => [] end.
Proof.
  intros Hbody. unfold step.
  set (w1 := _event self (StepEvent (fresh_base w) Begin type nm) w) in *.
  pose proof (with_track_store body w1 o w2 Hbody) as Hstore.
  rewrite (with_track_state SS type _ w1 _ _ Hstore).
  destruct o as [|exc].
  - eexists. split; [done|]. split.
    + cbn [snd]. rewrite events_event, track_state_exit_events,
        track_store_exit_events, decide_True by done.
      rewrite <-!app_assoc. reflexivity.
    + rewrite !step_marks_app, step_marks_store_exit, step_marks_state_exit.
      simpl. by rewrite decide_True.
  - exists []. by rewrite app_nil_r.
Qed.

(** C1, as the code has it. A step scope appends its begin event on
    entry. When the scoped work returns, the end event with the same name
    and type follows: around work that adds no marks of this step itself,
    the events added to the transcript hold exactly one begin and one end
    of the step, in that order. When the scoped work raises or is
    cancelled, the code after the [yield] does not run: the begin event
    stays without an end event. *)
Theorem step_marks_by_outcome :
  ∀ (SS : string) (self : nat) (nm : string) (type : option string)
    (body : Body) (w : World) (o : Outcome) (w' : World),
    step SS self nm type body w = (o, w') →
    (∀ w1 o1 w2, body w1 = (o1, w2) →
       ∃ mid, events self w2 = events self w1 ++ mid
            ∧ step_marks nm type mid = []) →
    ∃ added,
      events self w' = events self w ++ added
      ∧ step_marks nm type added
        = match o with
          | Returned => [Begin; End_]
          | Raised _ => [Begin]
          end.
Proof.
  intros SS self nm type body w o w' Hstep Hbody.
  destruct (body (_event self (StepEvent (fresh_base w) Begin type nm) w))
    as [o1 w2] eqn:Hb.
  destruct (Hbody _ _ _ Hb) as (mid & Hmid & Hmarks).
  destruct (step_events SS self nm type body w o1 w2 Hb) as (tail & Ho & Hev & Ht).
  rewrite Hstep in Ho, Hev. cbn [fst snd] in Ho, Hev. subst o1.
  exists ([StepEvent (fresh_base w) Begin type nm] ++ mid ++ tail). split.
  - rewrite Hev, Hmid, events_event, decide_True by done.
    by rewrite <-!app_assoc.
  - rewrite !step_marks_app, Hmarks, Ht. simpl. rewrite decide_True by done.
    by destruct o.
Qed.

Lemma step_marks_by_outcome_witness :
  ∃ added,
    events (transcript sample_world)
      (step "sample" (transcript sample_world) "plan" None store_and_info
         sample_world).2
    = events (transcript sample_world) sample_world ++ added
    ∧ step_marks "plan" None added = [Begin; End_].
Proof.
  apply (step_marks_by_outcome "sample" (transcript sample_world) "plan" None
           store_and_info sample_world Returned
           (step "sample" (transcript sample_world) "plan" None store_and_info
              sample_world).2).
  - reflexivity.
  - intros w1 o1 w2 [= <- <-].
    exists (if decide (transcript sample_world = transcript w1)
            then [InfoEvent (fresh_base (set_store store1 w1)) (JScalar (SStr "note"))]
            else []).
    split.
    + unfold info. rewrite events_event. f_equal.
    + by case_decide.
Defined.

(** C1 fails as stated: when the scoped work is cancelled, the
    transcript holds the begin event of the step and no end event. *)
Lemma step_cancelled_has_no_end :
  let w' := (step "sample" (transcript sample_world) "plan" None
               cancelled_body sample_world).2 in
  step_marks "plan" None (events (transcript sample_world) w') = [Begin]
  ∧ step_marks "plan" None (events (transcript sample_world) w') ≠ [Begin; End_].
Proof. by vm_compute. Qed.

(** ** Append-only *)

Lemma appends_only_info self data :
  appends_only (λ w, (Returned, info self data w)).
Proof.
  intros w. by exists [(self, InfoEvent (fresh_base w) data)].
Qed.

Lemma appends_only_with_store body :
  appends_only body → appends_only (with_ track_store_changes body).
Proof.
  intros Hb w. destruct (body w) as [o w1] eqn:Hbody.
  destruct (Hb w) as [es Hes]. rewrite Hbody in Hes. cbn [snd] in Hes.
  rewrite (with_track_store _ _ _ _ Hbody). cbn [snd].
  destruct o; [|by exists es].
  destruct (track_store_exit_appends (store w) w1) as [es' ->].
  exists (es ++ es'). rewrite appends_app. by apply heap_eq_appends.
Qed.

Lemma appends_only_with_state SS type body :
  appends_only body → appends_only (with_ (track_state_changes SS type) body).
Proof.
  intros Hb w. destruct (body w) as [o w1] eqn:Hbody.
  destruct (Hb w) as [es Hes]. rewrite Hbody in Hes. cbn [snd] in Hes.
  rewrite (with_track_state _ _ _ _ _ _ Hbody). cbn [snd].
  destruct o; [|by exists es].
  destruct (track_state_exit_appends SS type
              (if state_tracking_engaged SS type w then Some (state w) else None)
              w1) as [es' ->].
  exists (es ++ es'). rewrite appends_app. by apply heap_eq_appends.
Qed.

Lemma appends_only_step SS self nm type body :
  appends_only body → appends_only (step SS self nm type body).
Proof.
  intros Hb w. unfold step.
  set (begin := StepEvent (fresh_base w) Begin type nm).
  pose proof (appends_only_with_state SS type _ (appends_only_with_store _ Hb)
                (_event self begin w)) as [es Hes].
  destruct (with_ (track_state_changes SS type) (with_ track_store_changes body)
              (_event self begin w)) as [[|exc] w2]; cbn [snd] in *.
  - exists ((self, begin) :: es ++ [(self, StepEvent (fresh_base w2) End_ type nm)]).
    rewrite appends_cons, appends_app. by apply heap_eq_event.
  - by exists ((self, begin) :: es).
Qed.

Lemma run_operation_appends_only SS o :
  appends_only (operation_body o) → appends_only (run_operation SS o).
Proof.
  destruct o as [self data|self nm type body|body|type body]; simpl; intros Hb.
  - apply appends_only_info.
  - by apply appends_only_step.
  - by apply appends_only_with_store.
  - by apply appends_only_with_state.
Qed.

(** C7. A transcript is append-only. The append primitive adds its one
    event at the tail of one transcript; a run of appends leaves every
    transcript with the events it had, in their order, followed by the
    events sent to it, in the order of the appends; and every public
    operation ([info], [step], the two change-tracking wrappers) changes
    the transcripts the way some run of appends does, so that what a
    transcript held before the operation is a prefix of what it holds
    after. *)
Theorem transcript_append_only :
  ∀ (SS : string) (o : Operation),
    appends_only (operation_body o) →
    (∀ self e w r,
       events r (_event self e w)
       = events r w ++ (if decide (r = self) then [e] else []))
    ∧ (∀ es w r, events r (appends es w) = events r w ++ sent_to r es)
    ∧ appends_only (run_operation SS o)
    ∧ (∀ w r, events r w `prefix_of` events r (run_operation SS o w).2).
Proof.
  intros SS o Hb. split_and!.
  - intros. apply events_event.
  - intros. apply events_appends.
  - by apply run_operation_appends_only.
  - intros w r. destruct (run_operation_appends_only SS o Hb w) as [es Hes].
    exists (sent_to r es). rewrite <-events_appends. unfold events. by rewrite Hes.
Qed.

Lemma transcript_append_only_witness :
  (∀ self e w r,
     events r (_event self e w)
     = events r w ++ (if decide (r = self) then [e] else []))
  ∧ (∀ es w r, events r (appends es w) = events r w ++ sent_to r es)
  ∧ appends_only
      (run_operation "sample" (OpStep 1%nat "plan" None store_and_info))
  ∧ (∀ w r,
       events r w `prefix_of`
       events r (run_operation "sample" (OpStep 1%nat "plan" None store_and_info) w).2).
Proof.
  apply (transcript_append_only "sample" (OpStep 1%nat "plan" None store_and_info)).
  intros w. exists [(transcript w, InfoEvent (fresh_base (set_store store1 w))
                                     (JScalar (SStr "note")))].
  intros r. reflexivity.
Defined.


(* ================================================================== *)
(** * Properties of the context binding *)
(* ================================================================== *)

Lemma transcript_unbound w :
  bindings w !! current w = None → transcript w = default_transcript.
Proof. unfold transcript. by intros ->. Qed.

Lemma transcript_init_transcript t w : transcript (init_transcript t w) = t.
Proof. unfold transcript, init_transcript; simpl. by rewrite lookup_insert_eq. Qed.

(** [init_transcript] writes the binding of the running context only. *)
Lemma init_transcript_other_context t w c :
  c ≠ current w → bindings (init_transcript t w) !! c = bindings w !! c.
Proof. intros Hc. unfold init_transcript; simpl. by rewrite lookup_insert_ne. Qed.

Lemma respects_contexts_init_transcript t :
  respects_contexts (λ w, (Returned, init_transcript t w)).
Proof. intros w c Hc _. by apply init_transcript_other_context. Qed.

Lemma run_in_copied_context_binding child w :
  (current w < next_context w)%nat →
  respects_contexts child →
  transcript (run_in_copied_context child w).2 = transcript w.
Proof.
  intros Hlt Hchild. unfold run_in_copied_context.
  set (c := next_context w). set (parent := current w).
  set (copied := match bindings w !! parent with
                 | Some t => <[c:=t]> (bindings w)
                 | None => delete c (bindings w)
                 end).
  set (w1 := set_next_context (S c) (set_current c (set_bindings copied w))).
  pose proof (Hchild w1 parent) as Hp.
  destruct (child w1) as [o w'] eqn:Hc. cbn [snd] in *. unfold transcript; simpl.
  rewrite Hp; [|simpl; lia|simpl; lia]. simpl. f_equal. unfold copied.
  fold parent. destruct (bindings w !! parent) as [t|] eqn:Hb.
  - rewrite lookup_insert_ne by lia. done.
  - rewrite lookup_delete_ne by lia. done.
Qed.

(** C8. [transcript()] gives the transcript bound in the calling
    context: with no binding there it is the one default object, the same
    for every context and created empty and with the empty name; after
    [init_transcript t] it is [t]; and a subtask that runs in its own
    copy of the context and rebinds the transcript there leaves the
    [transcript()] of its parent, after it has run, what it was before. *)
Theorem transcript_binding_isolated :
  ∀ (w : World) (t : nat) (rest : Body),
    (current w < next_context w)%nat →
    respects_contexts rest →
    (bindings w !! current w = None → transcript w = default_transcript)
    ∧ (∀ st sta clock c,
         let w0 := set_current c (initial_world st sta clock) in
         transcript w0 = default_transcript
         ∧ name (heap w0 default_transcript) = ""
         ∧ events default_transcript w0 = [])
    ∧ transcript (init_transcript t w) = t
    ∧ transcript
        (run_in_copied_context (λ w1, rest (init_transcript t w1)) w).2
      = transcript w.
Proof.
  intros w t rest Hlt Hrest. split_and!.
  - apply transcript_unbound.
  - done.
  - apply transcript_init_transcript.
  - apply run_in_copied_context_binding; [done|].
    intros w1 c Hc Hn. rewrite (Hrest (init_transcript t w1) c); [|done..].
    by apply init_transcript_other_context.
Qed.

Lemma transcript_binding_isolated_witness :
  (bindings sample_world !! current sample_world = None →
   transcript sample_world = default_transcript)
  ∧ (∀ st sta clock c,
       let w0 := set_current c (initial_world st sta clock) in
       transcript w0 = default_transcript
       ∧ name (heap w0 default_transcript) = ""
       ∧ events default_transcript w0 = [])
  ∧ transcript (init_transcript 2 sample_world) = 2%nat
  ∧ transcript
      (run_in_copied_context (λ w1, note_body (init_transcript 2 w1))
         sample_world).2
    = transcript sample_world.
Proof.
  apply (transcript_binding_isolated sample_world 2 note_body).
  - simpl. lia.
  - intros w c _ _. reflexivity.
Defined.

(* ================================================================== *)
(** * Properties of the timestamp serialisation *)
(* ================================================================== *)

Lemma digit_char_is_digit d : 0 ≤ d < 10 → is_digit (digit_char d) = true.
Proof.
  intros Hd.
  assert (d = 0 ∨ d = 1 ∨ d = 2 ∨ d = 3 ∨ d = 4 ∨ d = 5 ∨ d = 6 ∨ d = 7
          ∨ d = 8 ∨ d = 9) as Hcases by lia.
  repeat (destruct Hcases as [->|Hcases]; [reflexivity|]). by subst.
Qed.

(** The digits written by [put_digits] are read back by [eat_digits]. *)
Lemma eat_put_digits w k n rest :
  eat_digits (w + k) (put_digits w n rest) = eat_digits k rest.
Proof.
  revert k n rest. induction w as [|w IH]; intros k n rest; [done|].
  cbn [put_digits]. replace (S w + k)%nat with (w + S k)%nat by lia.
  rewrite IH. cbn [eat_digits].
  rewrite digit_char_is_digit; [done|]. apply Z.mod_pos_bound. lia.
Qed.

Lemma eat_fmt_d w n rest :
  0 ≤ n < 10 ^ Z.of_nat w →
  eat_digits w (fmt_d w n rest) = Some rest.
Proof.
  intros Hn. unfold fmt_d.
  replace ((0 <=? n) && (n <? 10 ^ Z.of_nat w)) with true
    by (symmetry; apply andb_true_iff; split; [apply Z.leb_le|apply Z.ltb_lt]; lia).
  rewrite <-(Nat.add_0_r w) at 1. by rewrite eat_put_digits.
Qed.

Lemma days_in_month_bounds y m : 28 ≤ days_in_month y m ≤ 31.
Proof.
  unfold days_in_month. repeat case_match; lia.
Qed.

Lemma valid_date_spec y m d :
  valid_date y m d = true
  ↔ MINYEAR ≤ y ≤ MAXYEAR ∧ 1 ≤ m ≤ 12 ∧ 1 ≤ d ≤ days_in_month y m.
Proof.
  unfold valid_date. rewrite !andb_true_iff, !Z.leb_le. lia.
Qed.

Lemma next_day_valid y m d ymd' :
  valid_date y m d = true → next_day (y, m, d) = Some ymd' →
  valid_date ymd'.1.1 ymd'.1.2 ymd'.2 = true
  ∧ y ≤ ymd'.1.1 ≤ y + 1.
Proof.
  rewrite valid_date_spec. intros Hv. unfold next_day.
  pose proof (days_in_month_bounds y (m + 1)).
  pose proof (days_in_month_bounds (y + 1) 1).
  repeat case_match; intros [= <-]; simpl; rewrite valid_date_spec;
    unfold MINYEAR, MAXYEAR in *; lia.
Qed.

Lemma prev_day_valid y m d ymd' :
  valid_date y m d = true → prev_day (y, m, d) = Some ymd' →
  valid_date ymd'.1.1 ymd'.1.2 ymd'.2 = true
  ∧ y - 1 ≤ ymd'.1.1 ≤ y.
Proof.
  rewrite valid_date_spec. intros Hv. unfold prev_day.
  pose proof (days_in_month_bounds y (m - 1)).
  assert (days_in_month (y - 1) 12 = 31) by done.
  repeat case_match; intros [= <-]; simpl; rewrite valid_date_spec;
    unfold MINYEAR, MAXYEAR in *; lia.
Qed.

Lemma iter_day_valid f n ymd ymd' :
  (∀ y m d r, valid_date y m d = true → f (y, m, d) = Some r →
     valid_date r.1.1 r.1.2 r.2 = true) →
  valid_date ymd.1.1 ymd.1.2 ymd.2 = true →
  iter_day f n ymd = Some ymd' →
  valid_date ymd'.1.1 ymd'.1.2 ymd'.2 = true.
Proof.
  intros Hf. revert ymd. induction n as [|n IH]; intros [[y m] d] Hv; simpl.
  - by intros [= <-].
  - destruct (f (y, m, d)) as [r|] eqn:Hr; simpl; [|done].
    apply IH. by apply (Hf y m d r).
Qed.

Lemma shift_days_valid c y m d ymd' :
  valid_date y m d = true →
  shift_days c (y, m, d) = Some ymd' →
  valid_date ymd'.1.1 ymd'.1.2 ymd'.2 = true.
Proof.
  intros Hv. unfold shift_days. case_match; apply iter_day_valid; try done.
  - intros ???? H1 H2. by apply (next_day_valid _ _ _ _ H1 H2).
  - intros ???? H1 H2. by apply (prev_day_valid _ _ _ _ H1 H2).
Qed.

Lemma valid_datetime_spec dt :
  valid_datetime dt = true
  ↔ valid_date (year dt) (month dt) (day dt) = true
    ∧ 0 ≤ hour dt < 24 ∧ 0 ≤ minute dt < 60 ∧ 0 ≤ second dt < 60
    ∧ 0 ≤ microsecond dt < 1000000
    ∧ match tzinfo dt with Some o => valid_offset o = true | None => True end.
Proof.
  unfold valid_datetime. rewrite !andb_true_iff, !Z.leb_le, !Z.ltb_lt.
  destruct (tzinfo dt); intuition.
Qed.

Lemma valid_offset_spec o : valid_offset o = true ↔ -86400 < o < 86400.
Proof. unfold valid_offset. rewrite andb_true_iff, !Z.ltb_lt. done. Qed.

(** Moving a value by seconds keeps it a well-formed [datetime]. *)
Lemma add_seconds_valid dt delta r :
  valid_datetime dt = true →
  add_seconds dt delta = Some r →
  valid_datetime r = true ∧ tzinfo r = tzinfo dt.
Proof.
  rewrite !valid_datetime_spec. intros (Hd & Hh & Hm & Hs & Hus & Htz).
  unfold add_seconds.
  destruct (shift_days _ _) as [[[y m] d]|] eqn:Hshift; simpl; [|done].
  intros [= <-]. simpl. split; [|done].
  pose proof (shift_days_valid _ _ _ _ _ Hd Hshift) as Hd'. simpl in Hd'.
  set (s := hour dt * 3600 + minute dt * 60 + second dt + delta) in *.
  pose proof (Z.mod_pos_bound s 86400 ltac:(lia)) as Hsod.
  pose proof (Z.mod_pos_bound (s `mod` 86400) 3600 ltac:(lia)).
  pose proof (Z.mod_pos_bound (s `mod` 86400) 60 ltac:(lia)).
  split_and!; try done.
  all: try (apply Z.div_pos; lia).
  all: try (apply Z.div_lt_upper_bound; lia).
  all: try lia.
Qed.

Section serialize_facts.
Variables local_from_local local_timezone : datetime → Z.
Hypothesis local_timezone_valid : ∀ d, valid_offset (local_timezone d) = true.

(** The result of [astimezone()] is well formed and aware. *)
Lemma astimezone_valid dt r :
  valid_datetime dt = true →
  astimezone local_from_local local_timezone dt = Some r →
  valid_datetime r = true ∧ ∃ o, tzinfo r = Some o.
Proof.
  intros Hv. unfold astimezone.
  destruct (add_seconds dt _) as [utc|] eqn:Hutc; simpl; [|done].
  destruct (add_seconds utc _) as [r1|] eqn:Hr1; simpl; [|done].
  intros [= <-]. split; [|by eexists].
  apply add_seconds_valid in Hutc as [Hutc _]; [|done].
  apply add_seconds_valid in Hr1 as [Hr1 _]; [|done].
  apply valid_datetime_spec in Hr1 as (?&?&?&?&?&?).
  apply valid_datetime_spec. simpl. repeat split; try done; lia.
Qed.
End serialize_facts.

(** ** Reading back what [isoformat] writes *)

Lemma eat_char_same c s : eat_char c (String c s) = Some s.
Proof. unfold eat_char. by rewrite Ascii.eqb_refl. Qed.

Lemma reads_offset_format o :
  -86400 < o < 86400 → reads_offset (format_offset (Some o)) = true.
Proof.
  intros Ho. unfold format_offset.
  assert (0 ≤ Z.abs o < 86400) as Ha by lia.
  set (a := Z.abs o) in *.
  assert (0 ≤ a / 3600 < 10 ^ Z.of_nat 2) as Hhh.
  { split; [apply Z.div_pos; lia|]. apply Z.div_lt_upper_bound; simpl; lia. }
  pose proof (Z.mod_pos_bound a 3600 ltac:(lia)).
  assert (0 ≤ a `mod` 3600 / 60 < 10 ^ Z.of_nat 2) as Hmm.
  { split; [apply Z.div_pos; lia|]. apply Z.div_lt_upper_bound; simpl; lia. }
  assert (0 ≤ a `mod` 60 < 10 ^ Z.of_nat 2) as Hss.
  { pose proof (Z.mod_pos_bound a 60 ltac:(lia)). simpl; lia. }
  assert (∀ sign rest, (sign = "+" ∨ sign = "-") →
            reads_offset (sign +:+ rest)
            = match r1 ← eat_digits 2 rest; r2 ← eat_char ":" r1; eat_digits 2 r2 with
              | Some EmptyString => true
              | Some r =>
                  match r1 ← eat_char ":" r; eat_digits 2 r1 with
                  | Some EmptyString => true
                  | _ => false
                  end
              | None => false
              end) as Hsign.
  { by intros sign rest [-> | ->]. }
  rewrite Hsign by (case_match; auto).
  rewrite eat_fmt_d by done. cbn [mbind option_bind].
  rewrite eat_char_same. cbn [mbind option_bind].
  rewrite eat_fmt_d by done.
  destruct (a `mod` 60 =? 0); [done|].
  rewrite eat_char_same. cbn [mbind option_bind]. by rewrite eat_fmt_d.
Qed.

Lemma eat_fraction_offset o :
  eat_fraction (format_offset (Some o)) = Some (format_offset (Some o)).
Proof. unfold format_offset. by destruct (o <? 0). Qed.

(** A well-formed aware value is written as a date, a time and an
    explicit offset. *)
Lemma isoformat_reads_back dt o :
  valid_datetime dt = true → tzinfo dt = Some o →
  iso8601_with_offset (isoformat dt) = true.
Proof.
  rewrite valid_datetime_spec, valid_date_spec.
  intros ((Hy & Hm & Hd) & Hh & Hmi & Hs & Hus & Htz) Ho.
  rewrite Ho in Htz. apply valid_offset_spec in Htz.
  pose proof (days_in_month_bounds (year dt) (month dt)).
  unfold MINYEAR, MAXYEAR in *.
  unfold iso8601_with_offset, isoformat, format_time. rewrite Ho.
  repeat (rewrite eat_fmt_d by (simpl; lia); cbn [mbind option_bind];
          try (rewrite eat_char_same; cbn [mbind option_bind])).
  destruct (microsecond dt =? 0).
  - rewrite eat_fraction_offset. by apply reads_offset_format.
  - cbn [eat_fraction]. rewrite eat_fmt_d by (simpl; lia).
    by apply reads_offset_format.
Qed.

Lemma shift_days_small c y m d :
  -1 ≤ c ≤ 1 → valid_date y m d = true → MINYEAR < y < MAXYEAR →
  ∃ r, shift_days c (y, m, d) = Some r ∧ y - 1 ≤ r.1.1 ≤ y + 1.
Proof.
  intros Hc Hv Hy. assert (c = -1 ∨ c = 0 ∨ c = 1) as [-> | [-> | ->]] by lia.
  - assert (shift_days (-1) (y, m, d) = prev_day (y, m, d) ≫= Some) as -> by done.
    destruct (prev_day (y, m, d)) as [r|] eqn:Hr.
    + exists r. split; [done|]. destruct (prev_day_valid _ _ _ _ Hv Hr) as [_ ?]; lia.
    + unfold prev_day in Hr. repeat case_match; try done; lia.
  - exists (y, m, d). split; [done|]. simpl; lia.
  - assert (shift_days 1 (y, m, d) = next_day (y, m, d) ≫= Some) as -> by done.
    destruct (next_day (y, m, d)) as [r|] eqn:Hr.
    + exists r. split; [done|]. destruct (next_day_valid _ _ _ _ Hv Hr) as [_ ?]; lia.
    + unfold next_day in Hr. repeat case_match; try done; lia.
Qed.

Lemma add_seconds_small dt delta :
  valid_datetime dt = true → -86400 < delta < 86400 →
  MINYEAR < year dt < MAXYEAR →
  ∃ r, add_seconds dt delta = Some r ∧ year dt - 1 ≤ year r ≤ year dt + 1.
Proof.
  intros Hv Hdelta Hy.
  apply valid_datetime_spec in Hv as (Hd & Hh & Hm & Hs & _).
  unfold add_seconds.
  set (s := hour dt * 3600 + minute dt * 60 + second dt + delta).
  assert (-1 ≤ s / 86400 ≤ 1) as Hc.
  { split.
    - apply Z.div_le_lower_bound; lia.
    - assert (s / 86400 < 2); [|lia]. apply Z.div_lt_upper_bound; lia. }
  destruct (shift_days_small _ _ _ _ Hc Hd Hy) as ([[y m] d] & -> & Hr).
  simpl in *. eexists. split; [done|]. simpl. lia.
Qed.

(** C9. For every event with a well-formed timestamp, on a system whose
    local UTC offsets are within a day, the serialised timestamp, when
    the conversion to local time stays within the years a [datetime] can
    hold, is an ISO-8601 string [YYYY-MM-DDTHH:MM:SS[.ffffff]] that ends
    in an explicit UTC offset; and the conversion does stay within them
    for every year from 3 to 9997. *)
Theorem serialize_timestamp_iso8601 :
  ∀ (local_from_local local_timezone : datetime → Z) (e : Event),
    (∀ d, valid_offset (local_from_local d) = true) →
    (∀ d, valid_offset (local_timezone d) = true) →
    valid_datetime (timestamp (event_base e)) = true →
    (∀ s, serialize_timestamp local_from_local local_timezone
            (timestamp (event_base e)) = Some s →
          iso8601_with_offset s = true)
    ∧ (MINYEAR + 1 < year (timestamp (event_base e)) < MAXYEAR - 1 →
       is_Some (serialize_timestamp local_from_local local_timezone
                  (timestamp (event_base e)))).
Proof.
  intros lfl ltz e Hlfl Hltz Hv. set (dt := timestamp (event_base e)) in *.
  unfold serialize_timestamp. split.
  - intros s Hs. destruct (astimezone lfl ltz dt) as [r|] eqn:Hr; [|done].
    injection Hs as <-.
    destruct (astimezone_valid lfl ltz Hltz dt r Hv Hr) as [Hvr [o Ho]].
    by apply (isoformat_reads_back r o).
  - intros Hy. unfold astimezone.
    set (myoffset := match tzinfo dt with Some o => o | None => lfl dt end).
    assert (-86400 < myoffset < 86400) as Hmy.
    { unfold myoffset. destruct (tzinfo dt) as [o|] eqn:Ho.
      - apply valid_datetime_spec in Hv as (_&_&_&_&_&Htz).
        rewrite Ho in Htz. by apply valid_offset_spec.
      - apply valid_offset_spec, Hlfl. }
    unfold MINYEAR, MAXYEAR in *.
    destruct (add_seconds_small dt (- myoffset) Hv) as (utc & Hutc & Hyu);
      [lia|unfold MINYEAR, MAXYEAR; lia|].
    rewrite Hutc. cbn [mbind option_bind].
    apply add_seconds_valid in Hutc as [Hvu _]; [|done].
    pose proof (Hltz utc) as Hlo%valid_offset_spec.
    destruct (add_seconds_small utc (ltz utc) Hvu Hlo) as (r & -> & _);
      [unfold MINYEAR, MAXYEAR; lia|].
    by eexists.
Qed.

Lemma serialize_timestamp_iso8601_witness :
  (∀ s, serialize_timestamp utc_plus_one utc_plus_one
          (timestamp (event_base sample_info_event)) = Some s →
        iso8601_with_offset s = true)
  ∧ (MINYEAR + 1 < year (timestamp (event_base sample_info_event)) < MAXYEAR - 1 →
     is_Some (serialize_timestamp utc_plus_one utc_plus_one
                (timestamp (event_base sample_info_event)))).
Proof.
  apply (serialize_timestamp_iso8601 utc_plus_one utc_plus_one sample_info_event).
  - intros d. reflexivity.
  - intros d. reflexivity.
  - reflexivity.
Defined.

Example serialize_sample_time :
  serialize_timestamp utc_plus_one utc_plus_one sample_time
  = Some "2025-01-15T10:30:00+01:00".
Proof. reflexivity. Qed.

(* ================================================================== *)
(** * The timeout button *)
(* ================================================================== *)

Lemma last_set_last {A} (x : A) (l : list A) :
  l ≠ [] → last (set_last x l) = Some x.
Proof. destruct l; [done|]. intros _. unfold set_last. by rewrite last_snoc. Qed.

(** The handler of the timeout button cancels the tool event at the tail
    of the transcript without a look at [pending]: with a task handle on
    the event, the tail afterwards is the event with its marker set. *)
Lemma toolbar_timeout_ignores_pending interrupt t w (te : Tool.ToolEvent Event) task :
  last (events t w) = Some (ToolEvent te) →
  Tool._task te = Some task →
  ∃ te', last (events t (on_button_pressed interrupt (Some t) TIMEOUT_TOOL_CALL w))
           = Some (ToolEvent te')
       ∧ Tool.cancelled te' = true
       ∧ pending (Tool.base te') = pending (Tool.base te).
Proof.
  intros Hlast Htask. unfold on_button_pressed. rewrite Hlast.
  destruct (Tool._cancel te (cancel_requested w)) as [te' req] eqn:Hc.
  exists te'. destruct (cancel_with_task te (cancel_requested w) task Htask)
    as (Hm & _ & Hp).
  rewrite Hc in Hm, Hp. split_and!; [|done..].
  unfold events; simpl. rewrite decide_True by done. simpl.
  apply last_set_last. intros Hnil. unfold events in Hlast. by rewrite Hnil in Hlast.
Qed.


(* ================================================================== *)
(** * More on the tool-call event *)
(* ================================================================== *)

Section tool_event_traces.
Context {E : Type}.
Implicit Types (te : Tool.ToolEvent E) (req : gset Task)
  (st : Tool.ToolEvent E * gset Task) (cs : list (@Tool.call E)).

Lemma run_calls_nil st : Tool.run_calls [] st = st.
Proof. done. Qed.

Lemma run_calls_app cs1 cs2 st :
  Tool.run_calls (cs1 ++ cs2) st = Tool.run_calls cs2 (Tool.run_calls cs1 st).
Proof. unfold Tool.run_calls. by rewrite foldl_app. Qed.

Lemma run_call_keeps_marker (c : @Tool.call E) st :
  Tool.cancelled st.1 = true → Tool.cancelled (Tool.run_call c st).1 = true.
Proof.
  destruct st as [te req], c as [res trunc err evs|task|]; simpl; try done.
  unfold Tool._cancel. by destruct (Tool._task te).
Qed.

(** The cancelled marker is never taken back: once [cancelled] is true,
    it stays true through every later call, a resolution included. *)
Lemma cancelled_is_sticky cs st :
  Tool.cancelled st.1 = true →
  Tool.cancelled (Tool.run_calls cs st).1 = true.
Proof.
  intros Hst. induction cs as [|c cs IH] using rev_ind; [done|].
  rewrite run_calls_snoc. by apply run_call_keeps_marker.
Qed.

(** Cancelling twice is cancelling once. *)
Lemma cancel_idempotent te req :
  Tool._cancel (Tool._cancel te req).1 (Tool._cancel te req).2
  = Tool._cancel te req.
Proof.
  unfold Tool._cancel. destruct (Tool._task te) as [task|] eqn:Ht; simpl.
  - f_equal. set_solver.
  - by rewrite Ht.
Qed.

(** [cancel()] is only ever called on a task that was handed to the
    event: a task whose cancellation has been requested was requested
    before, or is the handle the event had, or was passed to a
    [_set_task] of the run. *)
Lemma cancel_requests_have_cause cs te req (task : Task) :
  task ∈ (Tool.run_calls cs (te, req)).2 →
  task ∈ req ∨ Tool._task te = Some task ∨ Tool.Call_set_task task ∈ cs.
Proof.
  assert (∀ cs,
    let st' := Tool.run_calls cs (te, req) in
    (∀ t, t ∈ st'.2 →
          t ∈ req ∨ Tool._task te = Some t ∨ Tool.Call_set_task t ∈ cs)
    ∧ (∀ t, Tool._task st'.1 = Some t →
            Tool._task te = Some t ∨ Tool.Call_set_task t ∈ cs)) as Hinv.
  { clear cs task. induction cs as [|c cs [IH1 IH2]] using rev_ind.
    - simpl. split; auto.
    - cbn zeta in *. rewrite run_calls_snoc.
      destruct (Tool.run_calls cs (te, req)) as [te' req'] eqn:Hrun.
      cbn [fst snd] in *.
      assert (∀ t, t ∈ req ∨ Tool._task te = Some t ∨ Tool.Call_set_task t ∈ cs →
                   t ∈ req ∨ Tool._task te = Some t
                   ∨ Tool.Call_set_task t ∈ cs ++ [c]) as Hweak1.
      { intros t [?|[?|?]]; auto. right; right. apply elem_of_app; auto. }
      assert (∀ t, Tool._task te = Some t ∨ Tool.Call_set_task t ∈ cs →
                   Tool._task te = Some t
                   ∨ Tool.Call_set_task t ∈ cs ++ [c]) as Hweak2.
      { intros t [?|?]; auto. right. apply elem_of_app; auto. }
      destruct c as [res trunc err evs|task'|]; simpl.
      + split; intros t Ht; auto.
      + split; intros t Ht; auto. injection Ht as ->.
        right. apply elem_of_app. right. by left.
      + unfold Tool._cancel.
        destruct (Tool._task te') as [task'|] eqn:Ht'; simpl.
        * split; intros t Ht; [|apply Hweak2, IH2; congruence].
          apply elem_of_union in Ht as [Ht|Ht]; [|by auto].
          apply elem_of_singleton in Ht as ->.
          right. apply Hweak2, IH2. done.
        * split; intros t Ht; [by auto|]. apply Hweak2, IH2. congruence. }
  intros Hin. by apply (Hinv cs).
Qed.

(** No call changes what the event is about: its id, function,
    arguments and view, and the time it was recorded. *)
Lemma run_calls_keeps_identity cs st :
  let te := st.1 in
  let te' := (Tool.run_calls cs st).1 in
  Tool.tool_id te' = Tool.tool_id te
  ∧ Tool.function te' = Tool.function te
  ∧ Tool.arguments te' = Tool.arguments te
  ∧ Tool.view te' = Tool.view te
  ∧ timestamp (Tool.base te') = timestamp (Tool.base te).
Proof.
  cbn zeta. induction cs as [|c cs IH] using rev_ind; [done|].
  rewrite run_calls_snoc.
  destruct (Tool.run_calls cs st) as [te' req'].
  destruct IH as (<- & <- & <- & <- & <-).
  destruct c as [res trunc err evs|task|]; simpl; try done.
  unfold Tool._cancel. by destruct (Tool._task te').
Qed.

(** Calls that are not resolutions leave the result, the truncation
    range, the error, the nested events and [pending] alone. *)
Lemma run_calls_no_set_result cs st :
  Forall (λ c, is_set_result c = false) cs →
  let te := st.1 in
  let te' := (Tool.run_calls cs st).1 in
  Tool.result te' = Tool.result te ∧ Tool.truncated te' = Tool.truncated te
  ∧ Tool.error te' = Tool.error te ∧ Tool.events te' = Tool.events te
  ∧ pending (Tool.base te') = pending (Tool.base te).
Proof.
  cbn zeta. induction cs as [|c cs IH] using rev_ind; [done|].
  intros [Hcs Hc]%Forall_app. rewrite Forall_singleton in Hc.
  rewrite run_calls_snoc.
  destruct (Tool.run_calls cs st) as [te' req'].
  destruct (IH Hcs) as (<- & <- & <- & <- & <-).
  destruct c as [res trunc err evs|task|]; simpl; try done.
  unfold Tool._cancel. by destruct (Tool._task te').
Qed.

(** The last resolution wins, and none undoes it: after a run of calls
    whose last [_set_result] has the arguments [res], [trunc], [err] and
    [evs], the event holds exactly these, and [pending] is cleared. *)
Lemma last_set_result_wins pre post st res trunc err evs :
  Forall (λ c, is_set_result c = false) post →
  let te' :=
    (Tool.run_calls (pre ++ Tool.Call_set_result res trunc err evs :: post) st).1 in
  Tool.result te' = res ∧ Tool.truncated te' = trunc
  ∧ Tool.error te' = err ∧ Tool.events te' = evs
  ∧ pending (Tool.base te') = None.
Proof.
  intros Hpost. cbn zeta.
  rewrite run_calls_app.
  change (Tool.run_calls (Tool.Call_set_result res trunc err evs :: post)
            (Tool.run_calls pre st))
    with (Tool.run_calls post
            (Tool.run_call (Tool.Call_set_result res trunc err evs)
               (Tool.run_calls pre st))).
  by destruct (run_calls_no_set_result post
                 (Tool.run_call (Tool.Call_set_result res trunc err evs)
                    (Tool.run_calls pre st)) Hpost) as (-> & -> & -> & -> & ->).
Qed.

End tool_event_traces.

Lemma cancelled_is_sticky_witness :
  Tool.cancelled
    (Tool.run_calls [Tool.Call_set_result (ResultStr "late") None None []]
       (Tool._cancel (Tool._set_task pending_call 7%nat) ∅)).1 = true.
Proof.
  apply (cancelled_is_sticky
           [Tool.Call_set_result (ResultStr "late") None None []]
           (Tool._cancel (Tool._set_task pending_call 7%nat) ∅)).
  reflexivity.
Defined.

Lemma cancel_requests_have_cause_witness :
  (7%nat : Task) ∈ (∅ : gset Task)
  ∨ Tool._task pending_call = Some 7%nat
  ∨ Tool.Call_set_task 7%nat
    ∈ [Tool.Call_set_task 7%nat; @Tool.Call_cancel Event].
Proof.
  apply (cancel_requests_have_cause
           [Tool.Call_set_task 7%nat; Tool.Call_cancel] pending_call ∅ 7%nat).
  vm_compute. set_solver.
Defined.

Lemma last_set_result_wins_witness :
  let te' :=
    (Tool.run_calls
       ([Tool.Call_set_result (ResultStr "first") None None []]
        ++ Tool.Call_set_result (ResultStr "second") (Some (0, 10)) None []
           :: [Tool.Call_cancel])
       (pending_call, ∅)).1 in
  Tool.result te' = ResultStr "second" ∧ Tool.truncated te' = Some (0, 10)
  ∧ Tool.error te' = None ∧ Tool.events te' = []
  ∧ pending (Tool.base te') = None.
Proof.
  apply (last_set_result_wins
           [Tool.Call_set_result (ResultStr "first") None None []]
           [Tool.Call_cancel] (pending_call, ∅)
           (ResultStr "second") (Some (0, 10)) None []).
  repeat constructor.
Defined.


(* ================================================================== *)
(** * More on [step] *)
(* ================================================================== *)

Lemma track_store_exit_frame before w :
  let w' := cm_exit track_store_changes before w in
  store w' = store w ∧ state w' = state w ∧ now w' = now w
  ∧ bindings w' = bindings w ∧ current w' = current w.
Proof. simpl. by destruct (store_changes before (store w)). Qed.

Lemma state_exit_events_frame frame w w' r :
  state w' = state w → now w' = now w → transcript w' = transcript w →
  state_exit_events frame w' r = state_exit_events frame w r.
Proof.
  intros Hs Hn Ht. unfold state_exit_events, fresh_base.
  by rewrite Hs, Hn, Ht.
Qed.

Lemma state_tracking_engaged_event SS type self e w :
  state_tracking_engaged SS type (_event self e w)
  = state_tracking_engaged SS type w.
Proof.
  unfold state_tracking_engaged. by rewrite transcript_event, name_event.
Qed.

Lemma step_exit_events SS self nm type body w w2 :
  body (_event self (StepEvent (fresh_base w) Begin type nm) w) = (Returned, w2) →
  ∀ r,
    events r (step SS self nm type body w).2
    = events r w2
      ++ store_exit_events (store w) w2 r
      ++ state_exit_events
           (if state_tracking_engaged SS type w then Some (state w) else None) w2 r
      ++ (if decide (r = self)
          then [StepEvent (fresh_base w2) End_ type nm] else []).
Proof.
  intros Hbody r. unfold step.
  set (w1 := _event self (StepEvent (fresh_base w) Begin type nm) w) in *.
  pose proof (with_track_store body w1 Returned w2 Hbody) as Hstore.
  rewrite (with_track_state SS type _ w1 _ _ Hstore). cbn [snd].
  destruct (track_store_exit_frame (store w1) w2) as (Hs & Hst & Hn & Hb & Hc).
  cbn zeta in *.
  set (w3 := cm_exit track_store_changes (store w1) w2) in *.
  set (frame := if state_tracking_engaged SS type w1 then Some (state w1) else None).
  assert (transcript w3 = transcript w2) as Ht
    by (unfold transcript; by rewrite Hb, Hc).
  rewrite events_event, track_state_exit_events.
  unfold w3 at 1. rewrite track_store_exit_events.
  rewrite (state_exit_events_frame frame w2 w3 r Hst Hn Ht).
  rewrite <-!app_assoc. do 3 f_equal.
  - unfold frame, w1. by rewrite state_tracking_engaged_event.
  - assert (fresh_base (cm_exit (track_state_changes SS type) frame w3)
            = fresh_base w2) as ->; [|done].
    unfold fresh_base. f_equal. rewrite <-Hn. simpl.
    destruct frame as [before|]; [|done].
    by destruct (json_changes before (state w3)).
Qed.

(** A step taken on a transcript that is not the current one when its
    body is done gets its end event and nothing else: the change events
    go to the current transcript. *)
Lemma step_on_other_transcript SS self nm type body w w2 :
  body (_event self (StepEvent (fresh_base w) Begin type nm) w) = (Returned, w2) →
  self ≠ transcript w2 →
  events self (step SS self nm type body w).2
  = events self w2 ++ [StepEvent (fresh_base w2) End_ type nm].
Proof.
  intros Hbody Hne. rewrite (step_exit_events _ _ _ _ _ _ _ Hbody).
  rewrite decide_True by done. f_equal.
  assert (store_exit_events (store w) w2 self = []) as ->.
  { unfold store_exit_events. destruct (store_changes _ _); [done|].
    by rewrite decide_False. }
  unfold state_exit_events.
  destruct (state_tracking_engaged SS type w); [|done].
  destruct (json_changes _ _); [done|]. by rewrite decide_False.
Qed.

(** The order of the events a step adds on return: when both the store
    and the task state changed across the step and state tracking is
    engaged, the current transcript gets the store-change event, then the
    state-change event, then the end event. *)
Lemma step_change_events_order SS self nm type body w w2 :
  body (_event self (StepEvent (fresh_base w) Begin type nm) w) = (Returned, w2) →
  self = transcript w2 →
  state_tracking_engaged SS type w = true →
  store w ≠ store w2 →
  state w ≠ state w2 →
  events self (step SS self nm type body w).2
  = events self w2
    ++ [StoreEvent (fresh_base w2) (json_changes (store w) (store w2));
        StateEvent (fresh_base w2) (json_changes (state w) (state w2));
        StepEvent (fresh_base w2) End_ type nm].
Proof.
  intros Hbody Hself Heng Hstore Hstate.
  rewrite (step_exit_events _ _ _ _ _ _ _ Hbody), Heng.
  rewrite decide_True by done. f_equal.
  unfold store_exit_events, state_exit_events, store_changes.
  rewrite <-json_changes_nil_iff in Hstore, Hstate.
  destruct (json_changes (store w) (store w2)); [done|].
  destruct (json_changes (state w) (state w2)); [done|].
  by rewrite !decide_True.
Qed.

Lemma step_on_other_transcript_witness :
  events default_transcript
    (step "sample" default_transcript "plan" None store_and_info sample_world).2
  = events default_transcript
      (store_and_info
         (_event default_transcript
            (StepEvent (fresh_base sample_world) Begin None "plan")
            sample_world)).2
    ++ [StepEvent
          (fresh_base
             (store_and_info
                (_event default_transcript
                   (StepEvent (fresh_base sample_world) Begin None "plan")
                   sample_world)).2)
          End_ None "plan"].
Proof.
  apply (step_on_other_transcript "sample" default_transcript "plan" None
           store_and_info sample_world).
  - reflexivity.
  - vm_compute. lia.
Defined.

Lemma step_change_events_order_witness :
  let w2 :=
    (store_and_state_body
       (_event (transcript sample_world)
          (StepEvent (fresh_base sample_world) Begin None "plan")
          sample_world)).2 in
  events (transcript sample_world)
    (step "sample" (transcript sample_world) "plan" None
       store_and_state_body sample_world).2
  = events (transcript sample_world) w2
    ++ [StoreEvent (fresh_base w2) (json_changes (store sample_world) (store w2));
        StateEvent (fresh_base w2) (json_changes (state sample_world) (state w2));
        StepEvent (fresh_base w2) End_ None "plan"].
Proof.
  apply (step_change_events_order "sample" (transcript sample_world) "plan" None
           store_and_state_body sample_world).
  - reflexivity.
  - reflexivity.
  - reflexivity.
  - simpl. unfold store1. intros [=].
  - simpl. unfold store1. intros [=].
Defined.


(* ================================================================== *)
(** * More on timestamps *)
(* ================================================================== *)

Lemma prev_next_day y m d r :
  valid_date y m d = true → next_day (y, m, d) = Some r →
  prev_day r = Some (y, m, d).
Proof.
  rewrite valid_date_spec. intros Hv. unfold next_day.
  assert (days_in_month y 12 = 31) as H12 by done.
  repeat case_match; intros [= <-]; unfold prev_day; try done.
  - replace (1 <? d + 1) with true by lia. do 3 f_equal. lia.
  - replace (1 <? 1) with false by done. replace (1 <? m + 1) with true by lia.
    replace (m + 1 - 1) with m by lia. do 3 f_equal. lia.
  - assert (m = 12) as -> by lia. unfold MINYEAR, MAXYEAR in *.
    replace (1 <? 1) with false by done.
    replace (1 <? y + 1) with true by lia.
    replace (y + 1 - 1) with y by lia. do 3 f_equal. lia.
Qed.

Lemma next_prev_day y m d r :
  valid_date y m d = true → prev_day (y, m, d) = Some r →
  next_day r = Some (y, m, d).
Proof.
  rewrite valid_date_spec. intros Hv. unfold prev_day.
  assert (days_in_month (y - 1) 12 = 31) as H12 by done.
  repeat case_match; intros [= <-]; unfold next_day; try done.
  - replace (d - 1 <? days_in_month y m) with true by lia. do 3 f_equal. lia.
  - rewrite Z.ltb_irrefl. replace (m - 1 <? 12) with true by lia.
    replace (m - 1 + 1) with m by lia. do 3 f_equal. lia.
  - rewrite H12. unfold MINYEAR, MAXYEAR in *.
    replace (31 <? 31) with false by done. replace (12 <? 12) with false by done.
    replace (y - 1 <? 9999) with true by lia.
    replace (y - 1 + 1) with y by lia. do 2 f_equal; [f_equal|]; lia.
Qed.

(** Going [c] days and then [-c] days ends where it began. *)
Lemma shift_days_back c y m d r :
  -1 ≤ c ≤ 1 → valid_date y m d = true →
  shift_days c (y, m, d) = Some r →
  shift_days (- c) r = Some (y, m, d).
Proof.
  intros Hc Hv. assert (c = -1 ∨ c = 0 ∨ c = 1) as [-> | [-> | ->]] by lia.
  - assert (shift_days (-1) (y, m, d) = prev_day (y, m, d) ≫= Some) as -> by done.
    destruct (prev_day (y, m, d)) as [r'|] eqn:Hr; [|done]. intros [= <-].
    assert (shift_days (- -1) r' = next_day r' ≫= Some) as -> by done.
    by rewrite (next_prev_day _ _ _ _ Hv Hr).
  - by intros [= <-].
  - assert (shift_days 1 (y, m, d) = next_day (y, m, d) ≫= Some) as -> by done.
    destruct (next_day (y, m, d)) as [r'|] eqn:Hr; [|done]. intros [= <-].
    assert (shift_days (- (1)) r' = prev_day r' ≫= Some) as -> by done.
    by rewrite (prev_next_day _ _ _ _ Hv Hr).
Qed.

Lemma time_of_day_split h m s :
  0 ≤ h → 0 ≤ m < 60 → 0 ≤ s < 60 →
  let t := h * 3600 + m * 60 + s in
  t / 3600 = h ∧ t `mod` 3600 / 60 = m ∧ t `mod` 60 = s.
Proof.
  intros Hh Hm Hs. cbn zeta.
  assert ((h * 3600 + m * 60 + s) `mod` 3600 = m * 60 + s) as ->.
  { symmetry. apply (Z.mod_unique_pos _ _ h); lia. }
  split_and!.
  - symmetry. apply (Z.div_unique_pos _ _ _ (m * 60 + s)); lia.
  - symmetry. apply (Z.div_unique_pos _ _ _ s); lia.
  - symmetry. apply (Z.mod_unique_pos _ _ (h * 60 + m)); lia.
Qed.

Lemma time_of_day_join t :
  t / 3600 * 3600 + t `mod` 3600 / 60 * 60 + t `mod` 60 = t.
Proof.
  pose proof (Z.div_mod t 3600 ltac:(lia)).
  pose proof (Z.div_mod (t `mod` 3600) 60 ltac:(lia)).
  pose proof (Z.mod_pos_bound (t `mod` 3600) 60 ltac:(lia)).
  assert (t `mod` 60 = (t `mod` 3600) `mod` 60) as ->; [|lia].
  symmetry.
  apply (Z.mod_unique_pos _ _ (t / 3600 * 60 + t `mod` 3600 / 60)); lia.
Qed.

(** A value moved by [-o] seconds and then by [o] seconds is the value
    it was. *)
Lemma add_seconds_back dt o u :
  valid_datetime dt = true → -86400 < o < 86400 →
  add_seconds dt (- o) = Some u →
  add_seconds u o = Some dt.
Proof.
  intros Hv Ho. apply valid_datetime_spec in Hv as (Hd & Hh & Hm & Hs & _).
  unfold add_seconds.
  set (tod := hour dt * 3600 + minute dt * 60 + second dt).
  assert (0 ≤ tod < 86400) as Htod by (unfold tod; lia).
  set (c := (tod + - o) / 86400). set (sod := (tod + - o) `mod` 86400).
  assert (-1 ≤ c ≤ 1) as Hc.
  { unfold c. split.
    - apply Z.div_le_lower_bound; lia.
    - assert ((tod + - o) / 86400 < 2); [|lia]. apply Z.div_lt_upper_bound; lia. }
  pose proof (Z.div_mod (tod + - o) 86400 ltac:(lia)) as Hdm.
  fold c sod in Hdm.
  destruct (shift_days c _) as [[[y m] d]|] eqn:Hshift; simpl; [|done].
  intros [= <-]. simpl. rewrite time_of_day_join.
  assert ((sod + o) / 86400 = - c) as ->.
  { symmetry. apply (Z.div_unique_pos _ _ _ tod); lia. }
  assert ((sod + o) `mod` 86400 = tod) as ->.
  { symmetry. apply (Z.mod_unique_pos _ _ (- c)); lia. }
  rewrite (shift_days_back _ _ _ _ _ Hc Hd Hshift). simpl. unfold tod.
  destruct (time_of_day_split (hour dt) (minute dt) (second dt))
    as (-> & -> & ->); [lia..|].
  by destruct dt.
Qed.

Lemma add_seconds_replace_tzinfo dt tz delta :
  add_seconds (replace_tzinfo dt tz) delta
  = (λ r, replace_tzinfo r tz) <$> add_seconds dt delta.
Proof.
  unfold add_seconds; simpl.
  by destruct (shift_days _ _) as [[[y m] d]|].
Qed.

Lemma astimezone_unfold lfl ltz dt :
  astimezone lfl ltz dt =
    add_seconds dt (- own_offset lfl dt) ≫= λ utc,
      (λ r, replace_tzinfo r (Some (ltz utc))) <$> add_seconds utc (ltz utc).
Proof.
  unfold astimezone, own_offset.
  destruct (add_seconds dt _) as [utc|]; simpl; [|done].
  by destruct (add_seconds utc (ltz utc)).
Qed.

Lemma astimezone_instant lfl ltz dt r :
  valid_datetime dt = true →
  (∀ d, valid_offset (ltz d) = true) →
  astimezone lfl ltz dt = Some r →
  ∃ tz, tzinfo r = Some tz
      ∧ utc_reading r tz = utc_reading dt (own_offset lfl dt).
Proof.
  intros Hv Hltz. rewrite astimezone_unfold.
  destruct (add_seconds dt _) as [utc|] eqn:Hutc; simpl; [|done].
  destruct (add_seconds utc (ltz utc)) as [r1|] eqn:Hr1; simpl; [|done].
  intros [= <-]. exists (ltz utc). split; [done|].
  unfold utc_reading. rewrite Hutc, add_seconds_replace_tzinfo.
  apply add_seconds_valid in Hutc as [Hvu _]; [|done].
  pose proof (Hltz utc) as Hlo%valid_offset_spec.
  rewrite <-(Z.opp_involutive (ltz utc)) in Hr1.
  apply add_seconds_back in Hr1; [|done|lia].
  rewrite Hr1. simpl. by destruct utc.
Qed.

(** A timestamp that already is at the offset of the local zone (a
    naive one is taken to be) is written with its own wall-clock
    reading, followed by that offset. *)
Lemma serialize_keeps_wall_clock lfl ltz dt off s :
  valid_datetime dt = true →
  valid_offset off = true →
  (∀ d, ltz d = off) →
  own_offset lfl dt = off →
  serialize_timestamp lfl ltz dt = Some s →
  s = isoformat (replace_tzinfo dt (Some off)).
Proof.
  intros Hv Hoff%valid_offset_spec Hltz Hown. unfold serialize_timestamp.
  rewrite astimezone_unfold, Hown.
  destruct (add_seconds dt (- off)) as [utc|] eqn:Hutc; simpl; [|done].
  rewrite Hltz. rewrite (add_seconds_back dt off utc Hv Hoff Hutc). simpl.
  by intros [= <-].
Qed.

(** [astimezone()] changes the wall-clock reading and the offset, never
    the instant: its result is a well-formed value with an offset that,
    read at Greenwich, is the value it was given, read at Greenwich. *)
Lemma astimezone_same_instant lfl ltz dt r :
  valid_datetime dt = true →
  (∀ d, valid_offset (ltz d) = true) →
  astimezone lfl ltz dt = Some r →
  valid_datetime r = true
  ∧ ∃ tz, tzinfo r = Some tz
        ∧ utc_reading r tz = utc_reading dt (own_offset lfl dt).
Proof.
  intros Hv Hltz Hr. split; [|by apply (astimezone_instant lfl ltz)].
  by destruct (astimezone_valid lfl ltz Hltz dt r Hv Hr).
Qed.

Lemma astimezone_same_instant_witness :
  valid_datetime (mkDatetime 2025 1 15 10 30 0 0 (Some 3600)) = true
  ∧ ∃ tz, tzinfo (mkDatetime 2025 1 15 10 30 0 0 (Some 3600)) = Some tz
        ∧ utc_reading (mkDatetime 2025 1 15 10 30 0 0 (Some 3600)) tz
          = utc_reading sample_time (own_offset utc_plus_one sample_time).
Proof.
  apply (astimezone_same_instant utc_plus_one utc_plus_one sample_time
           (mkDatetime 2025 1 15 10 30 0 0 (Some 3600))).
  - reflexivity.
  - intros d. reflexivity.
  - reflexivity.
Defined.

Lemma serialize_keeps_wall_clock_witness :
  "2025-01-15T10:30:00+01:00"
  = isoformat (replace_tzinfo sample_time (Some 3600)).
Proof.
  apply (serialize_keeps_wall_clock utc_plus_one utc_plus_one sample_time 3600
           "2025-01-15T10:30:00+01:00").
  - reflexivity.
  - reflexivity.
  - intros d. reflexivity.
  - reflexivity.
  - reflexivity.
Defined.


(* ================================================================== *)
(** * Properties of the sort *)
(* ================================================================== *)

Section list_sort_facts.
Context {A : Type} (before : A → A → bool).

Lemma insert_sorted_Permutation x l : insert_sorted before x l ≡ₚ x :: l.
Proof.
  induction l as [|y l IH]; simpl; [done|].
  destruct (before x y); [done|]. rewrite IH. apply Permutation_swap.
Qed.

Lemma list_sort_Permutation l : list_sort before l ≡ₚ l.
Proof.
  induction l as [|x l IH]; simpl; [done|].
  by rewrite insert_sorted_Permutation, IH.
Qed.

Lemma list_sort_length l : length (list_sort before l) = length l.
Proof. by rewrite list_sort_Permutation. Qed.

Hypothesis before_total : ∀ x y, before x y = true ∨ before y x = true.

Lemma insert_sorted_Sorted x l :
  Sorted (λ a b, before a b = true) l →
  Sorted (λ a b, before a b = true) (insert_sorted before x l).
Proof.
  induction 1 as [|y l Hl IH Hhd]; simpl; [by repeat constructor|].
  destruct (before x y) eqn:Hxy.
  - constructor; [by constructor|]. by constructor.
  - constructor; [done|].
    destruct l as [|z l]; simpl.
    + constructor. by destruct (before_total x y) as [?|?]; [congruence|].
    + inversion Hhd; subst. destruct (before x z); constructor; [|done].
      by destruct (before_total x y) as [?|?]; [congruence|].
Qed.

(** The sorted list has every element before its neighbour to the
    right. *)
Lemma list_sort_Sorted l :
  Sorted (λ a b, before a b = true) (list_sort before l).
Proof.
  induction l as [|x l IH]; simpl; [constructor|].
  by apply insert_sorted_Sorted.
Qed.

End list_sort_facts.


(* ================================================================== *)
(** * Properties of the sample list *)
(* ================================================================== *)

Section samples_facts.
Context {Sample : Type} `{EqDecision Sample}.
Variable sample_id : Sample → string.

Lemma sample_index_from_spec i (samples : list Sample) id :
  0 ≤ i →
  let r := sample_index_from sample_id i samples id in
  (r = -1 ∧ ∀ s, s ∈ samples → sample_id s ≠ id)
  ∨ (∃ (n : nat) s,
       r = i + Z.of_nat n ∧ samples !! n = Some s ∧ sample_id s = id
       ∧ ∀ (j : nat) s', (j < n)%nat → samples !! j = Some s' → sample_id s' ≠ id).
Proof.
  revert i. induction samples as [|s samples IH]; intros i Hi; simpl.
  - left. split; [done|]. by intros s Hs%elem_of_nil.
  - destruct (decide (sample_id s = id)) as [Heq|Hne].
    + right. exists 0%nat, s. split_and!; [lia|done|done|]. intros; lia.
    + destruct (IH (i + 1) ltac:(lia)) as [[-> Hall]|(n & s' & -> & Hn & Hid & Hfirst)].
      * left. split; [done|]. intros s' [->|Hs']%elem_of_cons; auto.
      * right. exists (S n), s'. split_and!; [lia|done|done|].
        intros [|j] s'' Hj Hs''; simpl in Hs''.
        -- by injection Hs'' as <-.
        -- apply (Hfirst j); [lia|done].
Qed.

Lemma sample_index_for_id_cases (samples : list Sample) id :
  let i := sample_index_for_id sample_id samples id in
  (i = -1 ∧ ∀ s, s ∈ samples → sample_id s ≠ id)
  ∨ (0 ≤ i < Z.of_nat (length samples)
     ∧ ∃ s, samples !! Z.to_nat i = Some s ∧ sample_id s = id
          ∧ ∀ (j : nat) s', (j < Z.to_nat i)%nat →
              samples !! j = Some s' → sample_id s' ≠ id).
Proof.
  cbn zeta. unfold sample_index_for_id.
  destruct (sample_index_from_spec 0 samples id ltac:(lia))
    as [?|(n & s & -> & Hn & Hid & Hfirst)]; [by left|].
  right. apply lookup_lt_Some in Hn as Hlt.
  rewrite Z.add_0_l, Nat2Z.id. split; [lia|]. by exists s.
Qed.

(** [sample_index_for_id] gives [-1] exactly when no sample has the id,
    and otherwise the position of the first sample that has it. *)
Lemma sample_index_for_id_spec (samples : list Sample) id :
  let i := sample_index_for_id sample_id samples id in
  -1 ≤ i < Z.of_nat (length samples)
  ∧ (i = -1 ↔ ∀ s, s ∈ samples → sample_id s ≠ id)
  ∧ (i ≠ -1 →
     ∃ s, samples !! Z.to_nat i = Some s ∧ sample_id s = id
        ∧ ∀ (j : nat) s', (j < Z.to_nat i)%nat →
            samples !! j = Some s' → sample_id s' ≠ id).
Proof.
  cbn zeta.
  destruct (sample_index_for_id_cases samples id)
    as [[Hi Hall]|(Hi & s & Hs & Hid & Hfirst)].
  - rewrite Hi. split_and!; [lia|lia|done|done].
  - split_and!; [lia|lia| |by exists s].
    split; [lia|]. intros Hall. destruct (Hall s); [|done].
    by eapply list_elem_of_lookup_2.
Qed.

Lemma sample_for_id_cases (samples : list Sample) id :
  (sample_for_id sample_id samples id = Some None
   ∧ ∀ s, s ∈ samples → sample_id s ≠ id)
  ∨ (∃ (n : nat) s,
       sample_for_id sample_id samples id = Some (Some s)
       ∧ samples !! n = Some s ∧ sample_id s = id
       ∧ ∀ (j : nat) s', (j < n)%nat → samples !! j = Some s' → sample_id s' ≠ id).
Proof.
  unfold sample_for_id.
  destruct (sample_index_for_id_cases samples id)
    as [[Hi Hall]|(Hi & s & Hs & Hid & Hfirst)].
  - left. by rewrite decide_False by (by rewrite Hi; intros []).
  - right. exists (Z.to_nat (sample_index_for_id sample_id samples id)), s.
    rewrite decide_True by lia. unfold getitem.
    replace (0 <=? _) with true by lia. by rewrite Hs.
Qed.

(** [sample_for_id] never raises: it gives [None] exactly when no sample
    has the id, and otherwise the first sample that has it. *)
Lemma sample_for_id_spec (samples : list Sample) id :
  ∃ found,
    sample_for_id sample_id samples id = Some found
    ∧ (found = None ↔ ∀ s, s ∈ samples → sample_id s ≠ id)
    ∧ ∀ s, found = Some s →
        ∃ n : nat, samples !! n = Some s ∧ sample_id s = id
          ∧ ∀ (j : nat) s', (j < n)%nat → samples !! j = Some s' → sample_id s' ≠ id.
Proof.
  destruct (sample_for_id_cases samples id)
    as [[-> Hnone]|(n & s & -> & Hn & Hid & Hfirst)].
  - exists None. split_and!; [done|done|done].
  - exists (Some s). split_and!; [done| |].
    + split; [done|]. intros Hall. destruct (Hall s); [|done].
      by eapply list_elem_of_lookup_2.
    + intros s' [= <-]. by exists n.
Qed.

End samples_facts.

Section set_samples_facts.
Context {Sample : Type} `{EqDecision Sample} {Seconds : Type}.
Variable sample_id : Sample → string.
Variable seconds_le : Seconds → Seconds → bool.
Variable execution_time : Sample → Seconds.

(** The list of samples after [set_samples], by cases. *)
Lemma set_samples_unfold self_samples highlighted_id samples :
  ∃ extra,
    set_samples sample_id seconds_le execution_time self_samples highlighted_id samples
    = Some (list_sort (longer_first seconds_le execution_time) (samples ++ extra),
            if bool_decide (0 < length (samples ++ extra))%nat
            then Some match highlighted_id with
                      | Some id =>
                          sample_index_for_id sample_id
                            (list_sort (longer_first seconds_le execution_time)
                               (samples ++ extra)) id
                      | None => 0
                      end
            else None)
    ∧ (extra = [] ∨ ∃ hs, extra = [hs] ∧ (hs ∉ samples) ∧ hs ∈ self_samples)
    ∧ ∀ id hs, highlighted_id = Some id → hs ∈ self_samples → sample_id hs = id →
        ∃ hs', hs' ∈ samples ++ extra ∧ sample_id hs' = id.
Proof.
  unfold set_samples. destruct highlighted_id as [id|]; simpl.
  - destruct (sample_for_id_cases sample_id self_samples id)
      as [[-> Hnone]|(n & hs & -> & Hn & Hid & _)]; simpl.
    + exists []. rewrite app_nil_r. split_and!; [by rewrite list_sort_length|by left|].
      intros id' hs' [= <-] Hin Hid. by destruct (Hnone hs' Hin).
    + case_bool_decide as Hin.
      * exists []. rewrite app_nil_r.
        split_and!; [by rewrite list_sort_length|by left|].
        intros id' _ [= <-] _ _. by exists hs.
      * exists [hs]. split_and!; [by rewrite list_sort_length| |].
        -- right. exists hs. split_and!; [done..|].
           by eapply list_elem_of_lookup_2.
        -- intros id' _ [= <-] _ _. exists hs. split; [|done].
           apply elem_of_app. right. by left.
  - exists []. rewrite app_nil_r.
    split_and!; [by rewrite list_sort_length|by left|done].
Qed.

(** [set_samples] does not lose the highlight: when the highlighted
    option is that of a sample of the list, that sample, or one with its
    id, is in the new list, whether the new samples include it or not,
    and the highlight goes to the first sample with that id. *)
Lemma set_samples_keeps_highlighted self_samples id samples hs :
  hs ∈ self_samples → sample_id hs = id →
  ∃ sorted (i : Z) s,
    set_samples sample_id seconds_le execution_time self_samples (Some id) samples = Some (sorted, Some i)
    ∧ 0 ≤ i < Z.of_nat (length sorted)
    ∧ sorted !! Z.to_nat i = Some s ∧ sample_id s = id.
Proof.
  intros Hin Hid.
  destruct (set_samples_unfold self_samples (Some id) samples)
    as (extra & -> & _ & Hkept).
  destruct (Hkept id hs eq_refl Hin Hid) as (hs' & Hin' & Hid').
  set (sorted := list_sort (longer_first seconds_le execution_time) (samples ++ extra)).
  assert (hs' ∈ sorted) as Hsorted by (unfold sorted; by rewrite list_sort_Permutation).
  destruct (sample_index_for_id_cases sample_id sorted id)
    as [[_ Hnone]|(Hi & s & Hs & Hids & _)]; [by destruct (Hnone hs' Hsorted)|].
  exists sorted, (sample_index_for_id sample_id sorted id), s.
  split_and!; [|lia|lia|done|done].
  rewrite bool_decide_true; [done|].
  apply list_elem_of_lookup in Hin' as [j Hj]. apply lookup_lt_Some in Hj. lia.
Qed.

Hypothesis seconds_le_total : ∀ x y, seconds_le x y = true ∨ seconds_le y x = true.


End set_samples_facts.


(* ================================================================== *)
(** * Properties of the toolbar *)
(* ================================================================== *)

Section toolbar_facts.
Context {Sample : Type}.
Variable sample_transcript : Sample → nat.
Variable completed : Sample → bool.
Variable fails_on_error : Sample → bool.

Lemma timeout_tool_display_sync (self : SampleToolbar) sample w :
  timeout_tool_display
    (sync_sample sample_transcript completed fails_on_error self sample w) = true
  ↔ ∃ s te, sample = Some s ∧ completed s = false
          ∧ last (events (sample_transcript s) w) = Some (ToolEvent te)
          ∧ pending (Tool.base te) = Some true.
Proof.
  unfold sync_sample. split.
  - destruct sample as [s|]; [|done].
    destruct (completed s) eqn:Hc; [done|]. simpl.
    destruct (last (events (sample_transcript s) w)) as [e|] eqn:Hlast; [|done].
    destruct (is_pending e) eqn:Hp; [|done]. simpl.
    destruct e as [| | | | |te| | | | | | | |]; try done. intros _.
    exists s, te. split_and!; try done.
    unfold is_pending in Hp. simpl in Hp.
    by destruct (pending (Tool.base te)) as [[|]|].
  - intros (s & te & -> & Hc & Hlast & Hp). rewrite Hc, Hlast. simpl.
    unfold is_pending. simpl. by rewrite Hp.
Qed.

Lemma tb_sample_sync (self : SampleToolbar) sample w :
  tb_sample (sync_sample sample_transcript completed fails_on_error self sample w)
  = sample.
Proof.
  unfold sync_sample. destruct sample as [s|]; [|done].
  destruct (completed s); [done|]. simpl.
  destruct (last _); [|done]. by destruct (is_pending _).
Qed.

(** After [sync_sample] the toolbar tracks the sample it was given, and
    the timeout button is on display exactly when that sample is not
    completed and the last event of its transcript is a tool event that
    is pending. *)
Lemma sync_sample_timeout_button (self : SampleToolbar) sample w :
  let self' := sync_sample sample_transcript completed fails_on_error self sample w in
  tb_sample self' = sample
  ∧ (timeout_tool_display self' = true
     ↔ ∃ s te, sample = Some s ∧ completed s = false
             ∧ last (events (sample_transcript s) w) = Some (ToolEvent te)
             ∧ pending (Tool.base te) = Some true).
Proof.
  cbn zeta. split; [apply tb_sample_sync|apply timeout_tool_display_sync].
Qed.

(** The status line shows something pending exactly when the last event
    of a sample that is not completed is pending, and the clock then
    runs from the time of that event. *)
Lemma sync_sample_pending_status (self : SampleToolbar) sample w :
  let self' := sync_sample sample_transcript completed fails_on_error self sample w in
  (pending_status_visible self' = true
   ↔ ∃ s e, sample = Some s ∧ completed s = false
          ∧ last (events (sample_transcript s) w) = Some e
          ∧ is_pending e = true)
  ∧ (pending_status_visible self' = true ↔ is_Some (clock_started self'))
  ∧ (timeout_tool_display self' = true → pending_status_visible self' = true).
Proof.
  unfold sync_sample. destruct sample as [s|]; simpl.
  - destruct (completed s) eqn:Hc; simpl.
    + split_and!; [|split; [done|by intros [??]]|done].
      split; [done|]. intros (s' & e & [= <-] & ? & _). congruence.
    + destruct (last (events (sample_transcript s) w)) as [e|] eqn:Hlast; simpl.
      * destruct (is_pending e) eqn:Hp; simpl.
        -- split_and!; [|split; [by eexists|done]|done].
           split; [|done]. intros _. by exists s, e.
        -- split_and!; [|split; [done|by intros [??]]|done].
           split; [done|]. intros (s' & e' & [= <-] & _ & Hl & ?).
           rewrite Hlast in Hl. injection Hl as <-. congruence.
      * split_and!; [|split; [done|by intros [??]]|done].
        split; [done|]. intros (s' & e' & [= <-] & _ & Hl & _). congruence.
  - split_and!; [|split; [done|by intros [??]]|done].
    split; [done|]. by intros (s' & e' & ? & _).
Qed.

(** A press on a timeout button that [sync_sample] has just put on
    display reaches an event that is pending: when that event has its
    task handle, the last event of the transcript afterwards is the same
    tool call, still pending, with the cancelled marker set. *)
Lemma timeout_press_after_sync interrupt (self : SampleToolbar) sample w :
  let self' := sync_sample sample_transcript completed fails_on_error self sample w in
  timeout_tool_display self' = true →
  ∃ s te,
    tb_sample self' = Some s
    ∧ last (events (sample_transcript s) w) = Some (ToolEvent te)
    ∧ pending (Tool.base te) = Some true
    ∧ (is_Some (Tool._task te) →
       ∃ te',
         last (events (sample_transcript s)
                 (on_button_pressed interrupt
                    (sample_transcript <$> tb_sample self') TIMEOUT_TOOL_CALL w))
         = Some (ToolEvent te')
         ∧ Tool.cancelled te' = true
         ∧ pending (Tool.base te') = Some true).
Proof.
  cbn zeta. intros Hshown.
  rewrite tb_sample_sync.
  apply timeout_tool_display_sync in Hshown as (s & te & -> & Hc & Hlast & Hp).
  exists s, te. split_and!; [done..|]. intros [task Htask]. simpl.
  destruct (toolbar_timeout_ignores_pending interrupt (sample_transcript s) w
              te task Hlast Htask) as (te' & Hlast' & Hm & Hp').
  exists te'. by rewrite Hp' .
Qed.

End toolbar_facts.

Lemma removelast_set_last {A} (x : A) (l : list A) :
  removelast (set_last x l) = removelast l.
Proof.
  destruct l as [|y l]; [done|]. unfold set_last.
  rewrite removelast_app by done. simpl. by rewrite app_nil_r.
Qed.

Lemma length_set_last {A} (x : A) (l : list A) :
  length (set_last x l) = length l.
Proof.
  destruct l as [|y l]; [done|]. unfold set_last.
  rewrite (app_removelast_last y (l := y :: l)) at 2 by done.
  by rewrite !length_app.
Qed.

(** A press on the timeout button leaves every transcript with as many
    events as it had, changes none but the last event of the transcript
    of the sample, and touches neither the store, the task state nor the
    bindings. *)
Lemma timeout_press_touches_tail_only interrupt sample w :
  let w' := on_button_pressed interrupt sample TIMEOUT_TOOL_CALL w in
  (∀ r, length (events r w') = length (events r w))
  ∧ (∀ r, removelast (events r w') = removelast (events r w))
  ∧ (∀ r, Some r ≠ sample → events r w' = events r w)
  ∧ (∀ r, name (heap w' r) = name (heap w r))
  ∧ store w' = store w ∧ state w' = state w
  ∧ bindings w' = bindings w ∧ current w' = current w.
Proof.
  cbn zeta. unfold on_button_pressed. destruct sample as [t|]; [|done].
  destruct (last (events t w)) as [e|] eqn:Hlast; [|done].
  destruct e as [| | | | |te| | | | | | | |]; try done.
  destruct (Tool._cancel te (cancel_requested w)) as [te' req].
  unfold events; simpl. split_and!; try done.
  - intros r. case_decide; [|done]. simpl. by rewrite length_set_last.
  - intros r. case_decide; [|done]. simpl. by rewrite removelast_set_last.
  - intros r Hr. rewrite decide_False; [done|]. by intros ->.
  - intros r. by case_decide.
Qed.


(* ================================================================== *)
(** * Properties of the VNC link *)
(* ================================================================== *)

Section vnc_facts.
Context {Sample : Type} `{EqDecision Sample}.
Variable sandboxes : Sample → list (string * SandboxConnection).
Variable get_service_by_port : Z → Protocol → option string.
Variable get_url : Z → string → option string.

Lemma scan_ports_spec port_list (self : @SampleVNC Sample) :
  scan_ports get_service_by_port get_url port_list self
  = match head (omap (port_vnc_url get_service_by_port get_url) port_list) with
    | Some u => mkSampleVNC (vnc_sample self) true u u
    | None => self
    end.
Proof.
  induction port_list as [|port rest IH]; [done|].
  cbn [scan_ports omap list_omap]. unfold port_vnc_url at 1.
  destruct (bool_decide _); [|done].
  destruct (mappings port) as [|hm ?]; [done|].
  by destruct (get_url (host_port hm) "noVNC") as [[|c u]|].
Qed.

Lemma scan_connection_spec c (self : @SampleVNC Sample) :
  scan_ports get_service_by_port get_url (default [] (ports c)) self
  = match connection_vnc_url get_service_by_port get_url c with
    | Some u => mkSampleVNC (vnc_sample self) true u u
    | None => self
    end.
Proof. apply scan_ports_spec. Qed.

Lemma connection_vnc_url_has_ports c u :
  connection_vnc_url get_service_by_port get_url c = Some u → has_ports c = true.
Proof.
  unfold connection_vnc_url, has_ports. by destruct (ports c) as [[|??]|].
Qed.

Lemma scan_connections_keep conns (self : @SampleVNC Sample) :
  Forall (λ c, connection_vnc_url get_service_by_port get_url c = None) conns →
  foldl (λ st connection,
           scan_ports get_service_by_port get_url
             (default [] (ports connection)) st) self conns = self.
Proof.
  intros Hall. revert self. induction Hall as [|c conns Hc _ IH]; intros self; [done|].
  simpl. by rewrite scan_connection_spec, Hc, IH.
Qed.

Lemma scan_connections_sample conns (self : @SampleVNC Sample) :
  vnc_sample
    (foldl (λ st connection,
              scan_ports get_service_by_port get_url
                (default [] (ports connection)) st) self conns)
  = vnc_sample self.
Proof.
  revert self. induction conns as [|c conns IH]; intros self; [done|].
  simpl. rewrite IH, scan_connection_spec.
  by destruct (connection_vnc_url _ _ c).
Qed.

(** The link of [SampleVNC] is that of the last sandbox connection that
    offers a noVNC URL: the inner loop stops at the first such port of a
    connection, the loop over the connections goes on.  The sample is
    never recorded. *)
Lemma vnc_sync_last_connection_wins (self : SampleVNC) sample before c after u :
  vnc_sample self ≠ Some sample →
  (sandboxes sample).*2 = before ++ c :: after →
  connection_vnc_url get_service_by_port get_url c = Some u →
  Forall (λ c', connection_vnc_url get_service_by_port get_url c' = None) after →
  vnc_sync_sample sandboxes get_service_by_port get_url self sample
  = mkSampleVNC (vnc_sample self) true u u.
Proof.
  intros Hne Hconns Hc Hafter. unfold vnc_sync_sample.
  rewrite decide_False by congruence. rewrite Hconns, filter_app, filter_cons.
  rewrite decide_True by by eapply connection_vnc_url_has_ports.
  rewrite foldl_app. cbn [foldl]. rewrite scan_connection_spec, Hc.
  rewrite scan_connections_keep; [by rewrite scan_connections_sample|].
  apply Forall_forall. intros c' [_ Hin]%list_elem_of_filter.
  rewrite Forall_forall in Hafter. by apply Hafter.
Qed.

(** With no connection that offers a noVNC URL, [SampleVNC] is hidden
    and its link is left as it was. *)
Lemma vnc_sync_hidden (self : SampleVNC) sample :
  vnc_sample self ≠ Some sample →
  Forall (λ c, connection_vnc_url get_service_by_port get_url c = None)
    (sandboxes sample).*2 →
  vnc_sync_sample sandboxes get_service_by_port get_url self sample
  = mkSampleVNC (vnc_sample self) false (link_text self) (link_url self).
Proof.
  intros Hne Hall. unfold vnc_sync_sample. rewrite decide_False by congruence.
  apply scan_connections_keep.
  apply Forall_forall. intros c' [_ Hin]%list_elem_of_filter.
  rewrite Forall_forall in Hall. by apply Hall.
Qed.

End vnc_facts.


(* ================================================================== *)
(** * Properties of the sandbox specification *)
(* ================================================================== *)

(** Resolving is idempotent, and it gives [None] for [None] only: a
    shorthand and the spec it stands for resolve to the same spec. *)
Lemma resolve_sandbox_environment_idempotent sandbox :
  resolve_sandbox_environment (OfSpec <$> resolve_sandbox_environment sandbox)
  = resolve_sandbox_environment sandbox
  ∧ (resolve_sandbox_environment sandbox = None ↔ sandbox = None).
Proof. by destruct sandbox as [[spec|type|type config]|]. Qed.


(* ================================================================== *)
(** * Properties of the Groq provider *)
(* ================================================================== *)

Lemma lookup_set_if_given_ne key value (params : gmap string json) k :
  key ≠ k → set_if_given key value params !! k = params !! k.
Proof.
  intros Hne. unfold set_if_given. destruct value; [|done].
  by rewrite lookup_insert_ne.
Qed.

Lemma lookup_set_if_given_eq key value (params : gmap string json) :
  params !! key = None → set_if_given key value params !! key = value.
Proof.
  intros Hnone. unfold set_if_given. destruct value; [|done].
  by rewrite lookup_insert_eq.
Qed.

Lemma lookup_stop_ne config (params : gmap string json) k :
  k ≠ "stop" →
  match stop_seqs config with
  | Some ((_ :: _) as seqs) =>
      <["stop" := JArr ((λ s, JScalar (SStr s)) <$> seqs)]> params
  | _ => params
  end !! k = params !! k.
Proof.
  intros Hne. destruct (stop_seqs config) as [[|??]|]; try done.
  by rewrite lookup_insert_ne.
Qed.

Lemma dom_set_if_given key value (params : gmap string json) (keys : gset string) :
  key ∈ keys → dom params ⊆ keys → dom (set_if_given key value params) ⊆ keys.
Proof.
  intros Hk Hd. unfold set_if_given. destruct value; [|done].
  rewrite dom_insert. set_solver.
Qed.

Lemma dom_completion_params config (keys : gset string) :
  {[ "temperature"; "max_tokens"; "top_p"; "stop"; "presence_penalty";
     "frequency_penalty"; "seed"; "n" ]} ⊆ keys →
  dom (completion_params config) ⊆ keys.
Proof.
  intros Hkeys. unfold completion_params. cbn zeta.
  repeat (apply dom_set_if_given; [set_solver|]).
  destruct (stop_seqs config) as [[|s seqs]|].
  - repeat (apply dom_set_if_given; [set_solver|]). set_solver.
  - rewrite dom_insert. apply union_least; [set_solver|].
    repeat (apply dom_set_if_given; [set_solver|]). set_solver.
  - repeat (apply dom_set_if_given; [set_solver|]). set_solver.
Qed.

Lemma chat_tool_choice_not_any tool_choice :
  chat_tool_choice tool_choice ≠ JScalar (SStr "any").
Proof.
  destruct tool_choice as [directive|name]; simpl; [|done].
  case_decide; [done|]. congruence.
Qed.

(** What [generate] sends to Groq besides the messages and the model:
    only the parameters the API knows; a parameter of the configuration
    that is not set is left out; the tool parameters, the one for
    parallel calls included, go out only with tools; and the tool choice
    is never ["any"]. *)
Lemma generate_params_spec config tools tool_choice :
  let params := generate_params config tools tool_choice in
  dom params ⊆ {[ "temperature"; "max_tokens"; "top_p"; "stop";
                  "presence_penalty"; "frequency_penalty"; "seed"; "n";
                  "tools"; "tool_choice"; "parallel_tool_calls" ]}
  ∧ params !! "temperature" = temperature config
  ∧ params !! "max_tokens" = max_tokens config
  ∧ params !! "seed" = seed config
  ∧ params !! "n" = num_choices config
  ∧ (params !! "stop" = None ↔ stop_seqs config = None ∨ stop_seqs config = Some [])
  ∧ (tools = [] ↔ params !! "tools" = None)
  ∧ (tools = [] ↔ params !! "tool_choice" = None)
  ∧ (tools = [] → params !! "parallel_tool_calls" = None)
  ∧ params !! "tool_choice" ≠ Some (JScalar (SStr "any")).
Proof.
  cbn zeta.
  assert (∀ k, k ≠ "tools" → k ≠ "tool_choice" → k ≠ "parallel_tool_calls" →
            generate_params config tools tool_choice !! k
            = completion_params config !! k) as Hother.
  { intros k H1 H2 H3. unfold generate_params. destruct tools as [|t tools]; [done|].
    destruct (parallel_tool_calls config);
      by rewrite ?lookup_insert_ne by done. }
  assert (∀ k, k ∈ ["tools"; "tool_choice"; "parallel_tool_calls"] →
            completion_params config !! k = None) as Hnone.
  { intros k Hk. apply not_elem_of_dom. intros Hd.
    apply (dom_completion_params config _ (reflexivity _)) in Hd.
    set_solver. }
  split_and!.
  - unfold generate_params. destruct tools as [|t tools].
    + apply dom_completion_params. set_solver.
    + pose proof (dom_completion_params config _ (reflexivity _)).
      destruct (parallel_tool_calls config); rewrite !dom_insert; set_solver.
  - rewrite Hother by done. unfold completion_params. cbn zeta.
    rewrite !lookup_set_if_given_ne, lookup_stop_ne, !lookup_set_if_given_ne by done.
    by apply lookup_set_if_given_eq.
  - rewrite Hother by done. unfold completion_params. cbn zeta.
    rewrite !lookup_set_if_given_ne, lookup_stop_ne, !lookup_set_if_given_ne by done.
    apply lookup_set_if_given_eq. by rewrite lookup_set_if_given_ne.
  - rewrite Hother by done. unfold completion_params. cbn zeta.
    rewrite !lookup_set_if_given_ne by done.
    apply lookup_set_if_given_eq.
    by rewrite !lookup_set_if_given_ne, lookup_stop_ne, !lookup_set_if_given_ne.
  - rewrite Hother by done. unfold completion_params. cbn zeta.
    apply lookup_set_if_given_eq.
    by rewrite !lookup_set_if_given_ne, lookup_stop_ne, !lookup_set_if_given_ne.
  - rewrite Hother by done. unfold completion_params. cbn zeta.
    rewrite !lookup_set_if_given_ne by done.
    destruct (stop_seqs config) as [[|??]|].
    + rewrite !lookup_set_if_given_ne by done. naive_solver.
    + rewrite lookup_insert_eq. naive_solver.
    + rewrite !lookup_set_if_given_ne by done. naive_solver.
  - unfold generate_params. destruct tools as [|t tools].
    + split; [|done]. intros _. apply Hnone. set_solver.
    + split; [done|]. destruct (parallel_tool_calls config);
        by rewrite ?lookup_insert_ne, ?lookup_insert_eq by done.
  - unfold generate_params. destruct tools as [|t tools].
    + split; [|done]. intros _. apply Hnone. set_solver.
    + split; [done|]. destruct (parallel_tool_calls config);
        by rewrite ?lookup_insert_ne, ?lookup_insert_eq by done.
  - intros ->. apply Hnone. set_solver.
  - unfold generate_params. destruct tools as [|t tools].
    + rewrite Hnone by set_solver. done.
    + assert (∀ m : gmap string json,
                (match parallel_tool_calls config with
                 | Some b => <["parallel_tool_calls" := JScalar (SBool b)]> m
                 | None => m
                 end) !! "tool_choice" = m !! "tool_choice") as ->.
      { intros m. destruct (parallel_tool_calls config); [|done].
        by rewrite lookup_insert_ne. }
      rewrite lookup_insert_eq. intros [= Heq].
      destruct (tool_choice_given tool_choice); [|done].
      by destruct (chat_tool_choice_not_any tool_choice).
Qed.

Section groq_response_facts.
Context {ToolCall StopReason : Type}.
Variable parse_tool_call : string → string → string → list json → ToolCall.
Variable as_stop_reason : string → StopReason.

(** The tool calls of an assistant message are missing or not empty,
    never an empty list, and there is one for each call of the
    response. *)
Lemma chat_tool_calls_spec message tools :
  match chat_tool_calls parse_tool_call message tools with
  | Some calls =>
      calls ≠ []
      ∧ ∃ raw, message_tool_calls message = Some raw ∧ length calls = length raw
  | None =>
      message_tool_calls message = None ∨ message_tool_calls message = Some []
  end.
Proof.
  unfold chat_tool_calls.
  destruct (message_tool_calls message) as [[|call calls]|]; [by right| |by left].
  split; [done|]. eexists. split; [done|]. by rewrite length_fmap.
Qed.

(** The choices come out in the order of their [index], whatever order
    the response had them in, one for each choice of the response. *)
Lemma chat_choices_in_index_order choices tools :
  ∃ sorted,
    sorted ≡ₚ choices
    ∧ Sorted Z.le (choice_index <$> sorted)
    ∧ _chat_choices_from_response parse_tool_call as_stop_reason choices tools
      = (λ choice,
           (chat_message_assistant parse_tool_call (choice_message choice) tools,
            as_stop_reason (finish_reason choice))) <$> sorted.
Proof.
  exists (list_sort (λ a b, choice_index a <=? choice_index b) choices).
  split_and!; [apply list_sort_Permutation| |done].
  eapply Sorted_fmap; [|apply list_sort_Sorted].
  - intros x y Hxy. simpl in Hxy. lia.
  - intros x y. simpl. lia.
Qed.

End groq_response_facts.


(* ================================================================== *)
(** * The properties at work *)
(* ================================================================== *)

Lemma set_samples_keeps_highlighted_witness :
  ∃ sorted (i : Z) s,
    set_samples demo_id Z.leb demo_time [0; 1; 2]%nat (Some "b") [0; 2]%nat
    = Some (sorted, Some i)
    ∧ 0 ≤ i < Z.of_nat (length sorted)
    ∧ sorted !! Z.to_nat i = Some s ∧ demo_id s = "b".
Proof.
  apply (set_samples_keeps_highlighted demo_id Z.leb demo_time
           [0; 1; 2]%nat "b" [0; 2]%nat 1%nat).
  - set_solver.
  - reflexivity.
Defined.


Example set_samples_demo :
  set_samples demo_id Z.leb demo_time [0; 1; 2]%nat (Some "b") [0; 2]%nat
  = Some ([2; 1; 0]%nat, Some 1).
Proof. reflexivity. Qed.

Lemma timeout_press_after_sync_witness :
  let self' :=
    sync_sample (λ _ : nat, transcript sample_world) (λ _, false) (λ _, false)
      mounted_toolbar (Some 1%nat) tool_world in
  ∃ s te,
    tb_sample self' = Some s
    ∧ last (events (transcript sample_world) tool_world) = Some (ToolEvent te)
    ∧ pending (Tool.base te) = Some true
    ∧ (is_Some (Tool._task te) →
       ∃ te',
         last (events (transcript sample_world)
                 (on_button_pressed (λ _ _ w, w)
                    ((λ _ : nat, transcript sample_world) <$> tb_sample self')
                    TIMEOUT_TOOL_CALL tool_world))
         = Some (ToolEvent te')
         ∧ Tool.cancelled te' = true
         ∧ pending (Tool.base te') = Some true).
Proof.
  apply (timeout_press_after_sync (λ _ : nat, transcript sample_world)
           (λ _, false) (λ _, false) (λ _ _ w, w) mounted_toolbar (Some 1%nat)
           tool_world).
  reflexivity.
Defined.

Lemma vnc_sync_last_connection_wins_witness :
  vnc_sync_sample demo_sandboxes demo_service demo_url
    (mkSampleVNC None false "" "") 1%nat
  = mkSampleVNC None true "http://localhost:32768?view_only=true"
      "http://localhost:32768?view_only=true".
Proof.
  apply (vnc_sync_last_connection_wins demo_sandboxes demo_service demo_url
           (mkSampleVNC None false "" "") 1%nat [] desktop_connection
           [plain_connection]).
  - simpl. congruence.
  - reflexivity.
  - reflexivity.
  - repeat constructor.
Defined.

Lemma vnc_sync_hidden_witness :
  vnc_sync_sample demo_sandboxes demo_service demo_url
    (mkSampleVNC None true "old" "old") 0%nat
  = mkSampleVNC None false "old" "old".
Proof.
  apply (vnc_sync_hidden demo_sandboxes demo_service demo_url
           (mkSampleVNC None true "old" "old") 0%nat).
  - simpl. congruence.
  - constructor.
Defined.


(* ================================================================== *)
(** * Nested steps *)
(* ================================================================== *)

Lemma track_state_exit_frame SS type frame w :
  let w' := cm_exit (track_state_changes SS type) frame w in
  store w' = store w ∧ state w' = state w ∧ now w' = now w
  ∧ bindings w' = bindings w ∧ current w' = current w.
Proof.
  simpl. destruct frame as [before|]; [|done].
  by destruct (json_changes before (state w)).
Qed.

(** A step that returns leaves the store, the task state, the clock and
    the bindings as its body left them. *)
Lemma step_returned_frame SS self nm type body w w2 :
  body (_event self (StepEvent (fresh_base w) Begin type nm) w) = (Returned, w2) →
  let w' := (step SS self nm type body w).2 in
  (step SS self nm type body w).1 = Returned
  ∧ store w' = store w2 ∧ state w' = state w2 ∧ now w' = now w2
  ∧ bindings w' = bindings w2 ∧ current w' = current w2.
Proof.
  intros Hbody. cbn zeta. unfold step.
  set (w1 := _event self (StepEvent (fresh_base w) Begin type nm) w) in *.
  pose proof (with_track_store body w1 Returned w2 Hbody) as Hstore.
  rewrite (with_track_state SS type _ w1 _ _ Hstore). cbn [fst snd].
  set (frame := if state_tracking_engaged SS type w1 then Some (state w1) else None).
  destruct (track_store_exit_frame (store w1) w2) as (Hs & Hst & Hn & Hb & Hc).
  destruct (track_state_exit_frame SS type frame
              (cm_exit track_store_changes (store w1) w2))
    as (Hs' & Hst' & Hn' & Hb' & Hc').
  cbn zeta in *. split_and!; [done|..].
  - by rewrite <-Hs, <-Hs'.
  - by rewrite <-Hst, <-Hst'.
  - by rewrite <-Hn, <-Hn'.
  - by rewrite <-Hb, <-Hb'.
  - by rewrite <-Hc, <-Hc'.
Qed.

(** What a step whose body returns does after the body: it returns as
    well, leaves the store, the task state and the bindings as the body
    left them, and adds to each transcript, after what the body left
    there, the store-change event and then the state-change event (in
    the transcript that is current when the body is done) and last the
    end event (in the transcript of the step). *)
Lemma step_returned_events SS self nm type body w w2 :
  body (_event self (StepEvent (fresh_base w) Begin type nm) w) = (Returned, w2) →
  let w' := (step SS self nm type body w).2 in
  (step SS self nm type body w).1 = Returned
  ∧ store w' = store w2 ∧ state w' = state w2 ∧ bindings w' = bindings w2
  ∧ ∀ r,
      events r w'
      = events r w2
        ++ store_exit_events (store w) w2 r
        ++ state_exit_events
             (if state_tracking_engaged SS type w then Some (state w) else None)
             w2 r
        ++ (if decide (r = self)
            then [StepEvent (fresh_base w2) End_ type nm] else []).
Proof.
  intros Hbody. cbn zeta.
  destruct (step_returned_frame SS self nm type body w w2 Hbody)
    as (Hret & Hs & Hst & _ & Hb & _).
  split_and!; [done..|]. by apply step_exit_events.
Qed.

Lemma step_returned_events_witness :
  let w2 :=
    (store_and_info
       (_event (transcript sample_world)
          (StepEvent (fresh_base sample_world) Begin None "plan")
          sample_world)).2 in
  let w' :=
    (step "sample" (transcript sample_world) "plan" None
       store_and_info sample_world).2 in
  (step "sample" (transcript sample_world) "plan" None
     store_and_info sample_world).1 = Returned
  ∧ store w' = store w2 ∧ state w' = state w2 ∧ bindings w' = bindings w2
  ∧ ∀ r,
      events r w'
      = events r w2
        ++ store_exit_events (store sample_world) w2 r
        ++ state_exit_events
             (if state_tracking_engaged "sample" None sample_world
              then Some (state sample_world) else None)
             w2 r
        ++ (if decide (r = transcript sample_world)
            then [StepEvent (fresh_base w2) End_ None "plan"] else []).
Proof.
  apply (step_returned_events "sample" (transcript sample_world) "plan" None
           store_and_info sample_world).
  reflexivity.
Defined.

(** A change of the store inside a step that is nested in another step
    is reported twice, with the same diff: by the inner step when it
    ends, and again by the outer step when that ends. *)
Lemma nested_steps_report_store_change_twice
    SS self nm1 type1 nm2 type2 body w w2 :
  let w1 := _event self (StepEvent (fresh_base w) Begin type1 nm1) w in
  body (_event self (StepEvent (fresh_base w1) Begin type2 nm2) w1) = (Returned, w2) →
  self = transcript w2 →
  store w ≠ store w2 →
  state w = state w2 →
  events self (step SS self nm1 type1 (step SS self nm2 type2 body) w).2
  = events self w2
    ++ [StoreEvent (fresh_base w2) (json_changes (store w) (store w2));
        StepEvent (fresh_base w2) End_ type2 nm2;
        StoreEvent (fresh_base w2) (json_changes (store w) (store w2));
        StepEvent (fresh_base w2) End_ type1 nm1].
Proof.
  intros w1 Hbody Hself Hstore Hstate.
  destruct (step_returned_frame SS self nm2 type2 body w1 w2 Hbody)
    as (Hret & Hs & Hst & Hn & Hb & Hc).
  cbn zeta in *.
  destruct (step SS self nm2 type2 body w1) as [o w3] eqn:Hinner.
  cbn [fst snd] in *. subst o.
  assert (transcript w3 = transcript w2) as Ht
    by (unfold transcript; by rewrite Hb, Hc).
  assert (fresh_base w3 = fresh_base w2) as Hfb
    by (unfold fresh_base; by rewrite Hn).
  assert (∀ (frame : bool) (w' w'' : World) (r : nat),
            state w' = state w2 → state w'' = state w →
            state_exit_events
              (if frame then Some (state w'') else None) w' r = []) as Hnostate.
  { intros frame w' w'' r Hw' Hw''. unfold state_exit_events.
    destruct frame; [|done]. by rewrite Hw', Hw'', Hstate, json_changes_refl. }
  rewrite (step_exit_events SS self nm1 type1 _ w w3 Hinner).
  pose proof (step_exit_events SS self nm2 type2 body w1 w2 Hbody self) as Hev.
  rewrite Hinner in Hev. cbn [snd] in Hev. rewrite Hev.
  rewrite (Hnostate (state_tracking_engaged SS type2 w1) w2 w1 self eq_refl eq_refl).
  rewrite (Hnostate (state_tracking_engaged SS type1 w) w3 w self Hst eq_refl).
  rewrite !(decide_True (P := self = self)) by done.
  assert (∀ w', store w' = store w2 → fresh_base w' = fresh_base w2 →
                transcript w' = transcript w2 →
            store_exit_events (store w) w' self
            = [StoreEvent (fresh_base w2) (json_changes (store w) (store w2))])
    as Hchanged.
  { intros w' Hs' Hfb' Ht'. unfold store_exit_events, store_changes.
    rewrite Hs', Hfb', Ht'. rewrite <-json_changes_nil_iff in Hstore.
    destruct (json_changes (store w) (store w2)) as [|c cs]; [done|].
    by rewrite decide_True. }
  change (store w1) with (store w).
  rewrite (Hchanged w2 eq_refl eq_refl eq_refl), (Hchanged w3 Hs Hfb Ht), Hfb.
  by rewrite <-!app_assoc.
Qed.

Lemma nested_steps_report_store_change_twice_witness :
  let w1 :=
    _event (transcript sample_world)
      (StepEvent (fresh_base sample_world) Begin (Some "solver") "outer")
      sample_world in
  let w2 :=
    (store_and_info
       (_event (transcript sample_world)
          (StepEvent (fresh_base w1) Begin (Some "solver") "inner") w1)).2 in
  events (transcript sample_world)
    (step "sample" (transcript sample_world) "outer" (Some "solver")
       (step "sample" (transcript sample_world) "inner" (Some "solver")
          store_and_info) sample_world).2
  = events (transcript sample_world) w2
    ++ [StoreEvent (fresh_base w2) (json_changes (store sample_world) (store w2));
        StepEvent (fresh_base w2) End_ (Some "solver") "inner";
        StoreEvent (fresh_base w2) (json_changes (store sample_world) (store w2));
        StepEvent (fresh_base w2) End_ (Some "solver") "outer"].
Proof.
  apply (nested_steps_report_store_change_twice "sample"
           (transcript sample_world) "outer" (Some "solver")
           "inner" (Some "solver") store_and_info sample_world).
  - reflexivity.
  - reflexivity.
  - simpl. unfold store1. intros [=].
  - reflexivity.
Defined.


(* ================================================================== *)
(** * The serialised timestamp, read back *)
(* ================================================================== *)

Lemma digit_value_char d : 0 ≤ d < 10 → digit_value (digit_char d) = d.
Proof.
  intros Hd.
  assert (d = 0 ∨ d = 1 ∨ d = 2 ∨ d = 3 ∨ d = 4 ∨ d = 5 ∨ d = 6 ∨ d = 7
          ∨ d = 8 ∨ d = 9) as Hcases by lia.
  repeat (destruct Hcases as [->|Hcases]; [reflexivity|]). by subst.
Qed.

Lemma read_put_digits w k acc n rest :
  0 ≤ n < 10 ^ Z.of_nat w →
  read_digits (w + k) acc (put_digits w n rest)
  = read_digits k (acc * 10 ^ Z.of_nat w + n) rest.
Proof.
  revert k acc n rest. induction w as [|w IH]; intros k acc n rest Hn.
  - simpl in *. do 2 f_equal. lia.
  - rewrite Nat2Z.inj_succ, Z.pow_succ_r in * by lia.
    pose proof (Z.mod_pos_bound n 10 ltac:(lia)) as Hmod.
    pose proof (Z.div_mod n 10 ltac:(lia)) as Hdm.
    cbn [put_digits]. replace (S w + k)%nat with (w + S k)%nat by lia.
    rewrite IH.
    + cbn [read_digits]. rewrite digit_char_is_digit, digit_value_char by done.
      f_equal. lia.
    + split; [apply Z.div_pos; lia|]. apply Z.div_lt_upper_bound; lia.
Qed.

Lemma read_fmt_d w n rest :
  0 ≤ n < 10 ^ Z.of_nat w →
  read_digits w 0 (fmt_d w n rest) = Some (n, rest).
Proof.
  intros Hn. unfold fmt_d.
  replace ((0 <=? n) && (n <? 10 ^ Z.of_nat w)) with true
    by (symmetry; apply andb_true_iff; split; [apply Z.leb_le|apply Z.ltb_lt]; lia).
  rewrite <-(Nat.add_0_r w) at 1. by rewrite read_put_digits.
Qed.

Lemma read_offset_format o :
  -86400 < o < 86400 → read_offset (format_offset (Some o)) = Some o.
Proof.
  intros Ho. unfold format_offset.
  assert (0 ≤ Z.abs o < 86400) as Ha by lia.
  set (a := Z.abs o) in *.
  assert (0 ≤ a / 3600 < 10 ^ Z.of_nat 2) as Hhh.
  { split; [apply Z.div_pos; lia|]. apply Z.div_lt_upper_bound; simpl; lia. }
  pose proof (Z.mod_pos_bound a 3600 ltac:(lia)).
  assert (0 ≤ a `mod` 3600 / 60 < 10 ^ Z.of_nat 2) as Hmm.
  { split; [apply Z.div_pos; lia|]. apply Z.div_lt_upper_bound; simpl; lia. }
  assert (0 ≤ a `mod` 60 < 10 ^ Z.of_nat 2) as Hss.
  { pose proof (Z.mod_pos_bound a 60 ltac:(lia)). simpl; lia. }
  pose proof (time_of_day_join a) as Hjoin.
  assert (∀ rest,
            read_offset ((if o <? 0 then "-" else "+") +:+ rest)
            = '(hh, r) ← read_digits 2 0 rest;
              r ← eat_char ":" r;
              '(mm, r) ← read_digits 2 0 r;
              match r with
              | EmptyString => Some ((if o <? 0 then -1 else 1) * (hh * 3600 + mm * 60))
              | _ =>
                  r ← eat_char ":" r;
                  '(ss, r) ← read_digits 2 0 r;
                  match r with
                  | EmptyString =>
                      Some ((if o <? 0 then -1 else 1) * (hh * 3600 + mm * 60 + ss))
                  | _ => None
                  end
              end) as Hsign.
  { intros rest. by destruct (o <? 0). }
  rewrite Hsign. rewrite read_fmt_d by done. cbn [mbind option_bind].
  rewrite eat_char_same. cbn [mbind option_bind].
  rewrite read_fmt_d by done. cbn [mbind option_bind].
  destruct (a `mod` 60 =? 0) eqn:Hss0.
  - f_equal. destruct (o <? 0) eqn:Hneg; lia.
  - rewrite eat_char_same. cbn [mbind option_bind].
    rewrite read_fmt_d by done. cbn [mbind option_bind].
    f_equal. destruct (o <? 0) eqn:Hneg; lia.
Qed.

Lemma read_fraction_offset o :
  read_fraction (format_offset (Some o)) = Some (0, format_offset (Some o)).
Proof. unfold format_offset. by destruct (o <? 0). Qed.

(** What [isoformat] writes for a well-formed aware value reads back as
    that value. *)
Lemma read_isoformat dt o :
  valid_datetime dt = true → tzinfo dt = Some o →
  read_iso8601 (isoformat dt) = Some dt.
Proof.
  rewrite valid_datetime_spec, valid_date_spec.
  intros ((Hy & Hm & Hd) & Hh & Hmi & Hs & Hus & Htz) Ho.
  rewrite Ho in Htz. apply valid_offset_spec in Htz.
  pose proof (days_in_month_bounds (year dt) (month dt)).
  unfold MINYEAR, MAXYEAR in *.
  unfold read_iso8601, isoformat, format_time. rewrite Ho.
  repeat (rewrite read_fmt_d by (simpl; lia); cbn [mbind option_bind];
          try (rewrite eat_char_same; cbn [mbind option_bind])).
  destruct (microsecond dt =? 0) eqn:Hus0.
  - rewrite read_fraction_offset. cbn [mbind option_bind].
    rewrite read_offset_format by done. cbn [mbind option_bind].
    destruct dt; simpl in *. do 2 f_equal; [lia|done].
  - cbn [read_fraction]. rewrite read_fmt_d by (simpl; lia). cbn [mbind option_bind].
    rewrite read_offset_format by done. cbn [mbind option_bind].
    destruct dt; simpl in *. by subst.
Qed.

(** Two well-formed aware values with the same [isoformat] are the same
    value. *)
Lemma isoformat_injective dt1 dt2 :
  valid_datetime dt1 = true → valid_datetime dt2 = true →
  is_Some (tzinfo dt1) → is_Some (tzinfo dt2) →
  isoformat dt1 = isoformat dt2 → dt1 = dt2.
Proof.
  intros Hv1 Hv2 [o1 Ho1] [o2 Ho2] Heq.
  pose proof (read_isoformat dt1 o1 Hv1 Ho1) as H1.
  pose proof (read_isoformat dt2 o2 Hv2 Ho2) as H2.
  rewrite Heq in H1. congruence.
Qed.

(** The serialised timestamp tells the instant: two timestamps that are
    written the same are the same instant. *)
Lemma serialize_timestamp_tells_instant lfl ltz dt1 dt2 s :
  (∀ d, valid_offset (ltz d) = true) →
  valid_datetime dt1 = true → valid_datetime dt2 = true →
  serialize_timestamp lfl ltz dt1 = Some s →
  serialize_timestamp lfl ltz dt2 = Some s →
  utc_reading dt1 (own_offset lfl dt1) = utc_reading dt2 (own_offset lfl dt2).
Proof.
  intros Hltz Hv1 Hv2. unfold serialize_timestamp.
  destruct (astimezone lfl ltz dt1) as [r1|] eqn:Hr1; [|done].
  destruct (astimezone lfl ltz dt2) as [r2|] eqn:Hr2; [|done].
  intros [= <-] [= Heq].
  destruct (astimezone_valid lfl ltz Hltz dt1 r1 Hv1 Hr1) as [Hvr1 [o1 Ho1]].
  destruct (astimezone_valid lfl ltz Hltz dt2 r2 Hv2 Hr2) as [Hvr2 [o2 Ho2]].
  assert (r2 = r1) as ->.
  { pose proof (read_isoformat r1 o1 Hvr1 Ho1) as H1.
    pose proof (read_isoformat r2 o2 Hvr2 Ho2) as H2.
    rewrite Heq in H2. congruence. }
  destruct (astimezone_instant lfl ltz dt1 r1 Hv1 Hltz Hr1) as (tz1 & Htz1 & <-).
  destruct (astimezone_instant lfl ltz dt2 r1 Hv2 Hltz Hr2) as (tz2 & Htz2 & <-).
  congruence.
Qed.

Lemma isoformat_injective_witness :
  mkDatetime 2025 1 15 10 30 0 0 (Some 3600)
  = mkDatetime 2025 1 15 10 30 0 0 (Some 3600).
Proof.
  apply (isoformat_injective (mkDatetime 2025 1 15 10 30 0 0 (Some 3600))
           (mkDatetime 2025 1 15 10 30 0 0 (Some 3600))).
  - reflexivity.
  - reflexivity.
  - eexists. reflexivity.
  - eexists. reflexivity.
  - reflexivity.
Defined.

Lemma serialize_timestamp_tells_instant_witness :
  utc_reading sample_time (own_offset utc_plus_one sample_time)
  = utc_reading (mkDatetime 2025 1 15 9 30 0 0 (Some 0))
      (own_offset utc_plus_one (mkDatetime 2025 1 15 9 30 0 0 (Some 0))).
Proof.
  apply (serialize_timestamp_tells_instant utc_plus_one utc_plus_one
           sample_time (mkDatetime 2025 1 15 9 30 0 0 (Some 0))
           "2025-01-15T10:30:00+01:00").
  - intros d. reflexivity.
  - reflexivity.
  - reflexivity.
  - reflexivity.
  - reflexivity.
Defined.
